(** * Pong: the game-state update of [main.js], verified over binary64 floats

    The simulation core of the repository is the function [update] of
    [main.js] together with the two keyboard handlers that write the [keys]
    object.  JavaScript numbers are IEEE 754 binary64 values, so the state is
    embedded over Rocq's primitive floats: every arithmetic operation and
    every comparison below is the one the JavaScript engine performs, and
    concrete runs of the game evaluate inside Rocq.

    The global objects [paddles], [ball] and [keys] become one explicit
    [Game] value that [update] takes and returns. *)

From Stdlib Require Import ZArith Floats Bool Lia.
From stdpp Require Import gmap strings.

(** ** Data model *)

(** One entry of [paddles]: [{ x, y, width, height, dy }]. *)
Module Paddle.

Record t : Type := mk
  { x : float; y : float; width : float; height : float; dy : float }.

Definition set_y (v : float) (p : t) : t :=
  {| x := x p; y := v; width := width p; height := height p; dy := dy p |}.

Definition set_dy (v : float) (p : t) : t :=
  {| x := x p; y := y p; width := width p; height := height p; dy := v |}.

End Paddle.

(** The [ball] object: [{ x, y, dx, dy, size }]. *)
Module Ball.

Record t : Type := mk
  { x : float; y : float; dx : float; dy : float; size : float }.

Definition set_x (v : float) (b : t) : t :=
  {| x := v; y := y b; dx := dx b; dy := dy b; size := size b |}.

Definition set_y (v : float) (b : t) : t :=
  {| x := x b; y := v; dx := dx b; dy := dy b; size := size b |}.

Definition set_dx (v : float) (b : t) : t :=
  {| x := x b; y := y b; dx := v; dy := dy b; size := size b |}.

Definition set_dy (v : float) (b : t) : t :=
  {| x := x b; y := y b; dx := dx b; dy := v; size := size b |}.

End Ball.

(** The [paddles] object: [{ left, right }]. *)
Module Paddles.

Record t : Type := mk { left : Paddle.t; right : Paddle.t }.

End Paddles.

(** The own properties of the [keys] object: a key identifier mapped to the
    boolean a key event wrote for it.  The object is created by [{}], so
    behind its own properties stand those of [Object.prototype]. *)
Abbreviation Keys := (gmap string bool).

(** The three module-level objects of [main.js]. *)
Record Game : Type := mkGame
  { paddles : Paddles.t; ball : Ball.t; keys : Keys }.

#[local] Set Warnings "-inexact-float".
Local Open Scope float_scope.

(** JavaScript's [a > b] on numbers is [b < a]; both are false on NaN. *)
Definition gtb (a b : float) : bool := b <? a.
Notation "a >? b" := (gtb a b) (at level 70, no associativity) : float_scope.

(** [Math.max] and [Math.min] on two numbers: NaN if either argument is NaN,
    and [+0] counts as larger than [-0]. *)
Definition Math_max (a b : float) : float :=
  if is_nan a || is_nan b then nan
  else if a <? b then b
  else if b <? a then a
  else if get_sign a then b else a.

Definition Math_min (a b : float) : float :=
  if is_nan a || is_nan b then nan
  else if a <? b then a
  else if b <? a then b
  else if get_sign a then a else b.

(** ** Initial state (lines 59-73) *)

Definition initial_left : Paddle.t :=
  {| Paddle.x := -0.9; Paddle.y := 0.0; Paddle.width := 0.02;
     Paddle.height := 0.2; Paddle.dy := 0 |}.

Definition initial_right : Paddle.t :=
  {| Paddle.x := 0.9; Paddle.y := 0.0; Paddle.width := 0.02;
     Paddle.height := 0.2; Paddle.dy := 0 |}.

Definition initial_ball : Ball.t :=
  {| Ball.x := 0.0; Ball.y := 0.0; Ball.dx := 0.01; Ball.dy := 0.01;
     Ball.size := 0.02 |}.

Definition initial : Game :=
  {| paddles := {| Paddles.left := initial_left; Paddles.right := initial_right |};
     ball := initial_ball;
     keys := ∅ |}.

(** ** Input (lines 73-81) *)

(** The string-named properties of [Object.prototype], which every object
    made by [{}] inherits.  All hold functions, except the accessor
    [__proto__], whose getter returns the prototype: read through [keys],
    each of them is truthy. *)
Definition Object_prototype_names : list string :=
  [ "constructor"; "__defineGetter__"; "__defineSetter__"; "hasOwnProperty";
    "__lookupGetter__"; "__lookupSetter__"; "isPrototypeOf";
    "propertyIsEnumerable"; "toString"; "valueOf"; "__proto__";
    "toLocaleString" ].

(** [k] names a property that [keys] inherits. *)
Definition inherited (k : string) : bool :=
  existsb (String.eqb k) Object_prototype_names.

(** [keys[k] = isDown]: what both listeners do to the [keys] object.  The
    assignment overwrites an own property.  Without one it makes one, also
    when [k] names an inherited function, except for [__proto__]: there it
    runs the inherited setter, which ignores a boolean and leaves the
    object as it is. *)
Definition setPressed (k : string) (isDown : bool) (ks : Keys) : Keys :=
  match ks !! k with
  | Some _ => <[k := isDown]> ks
  | None => if String.eqb k "__proto__" then ks else <[k := isDown]> ks
  end.

(** The condition [keys[k]] of an [if]: an own property gives the boolean
    written; without one the read falls through to [Object.prototype], where
    an inherited name gives a truthy value and any other name [undefined],
    which is falsy. *)
Definition isPressed (ks : Keys) (k : string) : bool :=
  match ks !! k with
  | Some b => b
  | None => inherited k
  end.

(** The ['keydown'] and ['keyup'] listeners, with [k] the event's [key]. *)
Definition keydown (k : string) (g : Game) : Game :=
  {| paddles := paddles g; ball := ball g; keys := setPressed k true (keys g) |}.

Definition keyup (k : string) (g : Game) : Game :=
  {| paddles := paddles g; ball := ball g; keys := setPressed k false (keys g) |}.

(** ** The stages of [update] (lines 84-133) *)

(** Lines 86-88 and 91-93: the paddle's [dy] from its pair of keys. *)
Definition steer (up down : string) (ks : Keys) (p : Paddle.t) : Paddle.t :=
  if isPressed ks up then Paddle.set_dy 0.02 p
  else if isPressed ks down then Paddle.set_dy (-0.02) p
  else Paddle.set_dy 0 p.

(** Lines 96-97: [y += dy]. *)
Definition advance (p : Paddle.t) : Paddle.t :=
  Paddle.set_y (Paddle.y p + Paddle.dy p) p.

(** The two bounds computed on lines 100-101. *)
Definition lower_bound (p : Paddle.t) : float := -1 + Paddle.height p / 2.
Definition upper_bound (p : Paddle.t) : float := 1 - Paddle.height p / 2.

(** Lines 100-101: [y = Math.max(-1 + height / 2, Math.min(1 - height / 2, y))]. *)
Definition clamp (p : Paddle.t) : Paddle.t :=
  Paddle.set_y
    (Math_max (lower_bound p) (Math_min (upper_bound p) (Paddle.y p))) p.

(** Lines 104-105: [ball.x += ball.dx; ball.y += ball.dy]. *)
Definition move (b : Ball.t) : Ball.t :=
  let b := Ball.set_x (Ball.x b + Ball.dx b) b in
  Ball.set_y (Ball.y b + Ball.dy b) b.

(** Line 108: the top-and-bottom test. *)
Definition hits_wall (b : Ball.t) : bool :=
  (Ball.y b >? 1 - Ball.size b) || (Ball.y b <? -1 + Ball.size b).

(** Lines 108-110. *)
Definition bounce_wall (b : Ball.t) : Ball.t :=
  if hits_wall b then Ball.set_dy (Ball.dy b * -1) b else b.

(** Lines 113-116: the left paddle's test, conjuncts in source order. *)
Definition hits_left (l : Paddle.t) (b : Ball.t) : bool :=
  (Ball.x b <? Paddle.x l + Paddle.width l) &&
  (Ball.x b >? Paddle.x l - Paddle.width l) &&
  (Ball.y b <? Paddle.y l + Paddle.height l / 2) &&
  (Ball.y b >? Paddle.y l - Paddle.height l / 2).

(** Lines 120-123: the right paddle's test, conjuncts in source order. *)
Definition hits_right (r : Paddle.t) (b : Ball.t) : bool :=
  (Ball.x b >? Paddle.x r - Paddle.width r) &&
  (Ball.x b <? Paddle.x r + Paddle.width r) &&
  (Ball.y b <? Paddle.y r + Paddle.height r / 2) &&
  (Ball.y b >? Paddle.y r - Paddle.height r / 2).

(** Lines 113-118 and 120-125. *)
Definition bounce_left (l : Paddle.t) (b : Ball.t) : Ball.t :=
  if hits_left l b then Ball.set_dx (Ball.dx b * -1) b else b.

Definition bounce_right (r : Paddle.t) (b : Ball.t) : Ball.t :=
  if hits_right r b then Ball.set_dx (Ball.dx b * -1) b else b.

(** Line 128: the test for a ball past either paddle. *)
Definition is_out (b : Ball.t) : bool :=
  (Ball.x b >? 1) || (Ball.x b <? -1).

(** Lines 128-132: [ball.x = 0; ball.y = 0; ball.dx = -ball.dx]. *)
Definition recentre (b : Ball.t) : Ball.t :=
  if is_out b then
    let b := Ball.set_x 0 b in
    let b := Ball.set_y 0 b in
    Ball.set_dx (- Ball.dx b) b
  else b.

(** The paddles once lines 86-101 have run. *)
Definition update_left (ks : Keys) (l : Paddle.t) : Paddle.t :=
  clamp (advance (steer "w" "s" ks l)).

Definition update_right (ks : Keys) (r : Paddle.t) : Paddle.t :=
  clamp (advance (steer "ArrowUp" "ArrowDown" ks r)).

(** [function update()]: one tick. *)
Definition update (g : Game) : Game :=
  let l := update_left (keys g) (Paddles.left (paddles g)) in
  let r := update_right (keys g) (Paddles.right (paddles g)) in
  let b := move (ball g) in
  let b := bounce_wall b in
  let b := bounce_left l b in
  let b := bounce_right r b in
  let b := recentre b in
  {| paddles := {| Paddles.left := l; Paddles.right := r |};
     ball := b;
     keys := keys g |}.

(** [n] consecutive ticks of the game loop with no key event in between. *)
Definition run (n : nat) (g : Game) : Game := Nat.iter n update g.

(** ** Names for the parts of a tick *)

Inductive side : Type := Left | Right.

(** [paddles.left] or [paddles.right]. *)
Definition paddle (s : side) (g : Game) : Paddle.t :=
  match s with
  | Left => Paddles.left (paddles g)
  | Right => Paddles.right (paddles g)
  end.

(** The key pair of each paddle (lines 86-87 and 91-92). *)
Definition up_key (s : side) : string :=
  match s with Left => "w" | Right => "ArrowUp" end.

Definition down_key (s : side) : string :=
  match s with Left => "s" | Right => "ArrowDown" end.

(** The test of the [if] that guards the paddle's reflection. *)
Definition hits (s : side) : Paddle.t -> Ball.t -> bool :=
  match s with
  | Left => hits_left
  | Right => hits_right
  end.

(** The ball as line 105 leaves it: position integrated, nothing tested yet. *)
Definition integrated (g : Game) : Ball.t := move (ball g).

(** The ball as line 125 leaves it, just before the test of line 128. *)
Definition collided (g : Game) : Ball.t :=
  bounce_right (paddle Right (update g))
    (bounce_left (paddle Left (update g)) (bounce_wall (integrated g))).

(** No [if] of lines 108-132 takes its branch during this tick. *)
Definition quiet (g : Game) : bool :=
  let b := integrated g in
  negb (hits_wall b) &&
  negb (hits_left (paddle Left (update g)) (bounce_wall b)) &&
  negb (hits_right (paddle Right (update g))
          (bounce_left (paddle Left (update g)) (bounce_wall b))) &&
  negb (is_out (collided g)).

(** [quiet] holds at each of the next [n] ticks. *)
Fixpoint all_quiet (n : nat) (g : Game) : bool :=
  match n with
  | O => true
  | S k => quiet g && all_quiet k (update g)
  end.

(** ** The program as a trace of events

    The host delivers key events and animation frames one at a time;
    [gameLoop] answers a frame with one call of [update]. *)

Inductive event : Type :=
| KeyDown (k : string)
| KeyUp (k : string)
| Frame.

Definition handle (g : Game) (e : event) : Game :=
  match e with
  | KeyDown k => keydown k g
  | KeyUp k => keyup k g
  | Frame => update g
  end.

Definition play (evs : list event) (g : Game) : Game := foldl handle g evs.

(** The event is an assignment to [keys[k]]. *)
Definition writes (k : string) (e : event) : bool :=
  match e with
  | KeyDown k' | KeyUp k' => String.eqb k k'
  | Frame => false
  end.

(** ** Predicates used in the statements *)

(** The paddle's position lies in the interval of lines 100-101. *)
Definition within_bounds (p : Paddle.t) : bool :=
  (lower_bound p <=? Paddle.y p) && (Paddle.y p <=? upper_bound p).

(** The interval of lines 100-101 is not empty. *)
Definition bounds_ordered (p : Paddle.t) : bool :=
  lower_bound p <=? upper_bound p.

(** Both paddles are in their interval, and the intervals are not empty. *)
Definition paddles_settled (g : Game) : Prop :=
  forall s, within_bounds (paddle s g) = true /\ bounds_ordered (paddle s g) = true.

(** Neither NaN nor an infinity. *)
Definition finite_number (a : float) : bool :=
  match Prim2SF a with
  | S754_zero _ | S754_finite _ _ _ => true
  | _ => false
  end.

(** The paddle's horizontal extent [x - width, x + width] lies in [-1, 1]. *)
Definition box_in_field (p : Paddle.t) : bool :=
  (-1 <=? Paddle.x p - Paddle.width p) && (Paddle.x p + Paddle.width p <=? 1).

(** The left paddle's horizontal extent ends before the right one's begins. *)
Definition boxes_apart (g : Game) : bool :=
  Paddle.x (paddle Left g) + Paddle.width (paddle Left g) <=?
  Paddle.x (paddle Right g) - Paddle.width (paddle Right g).

(** The bounding box as the specification words it, with closed intervals:
    x within [paddleX - width, paddleX + width] and y within
    [paddleY - height/2, paddleY + height/2]. *)
Definition spec_in_box (p : Paddle.t) (b : Ball.t) : bool :=
  (Paddle.x p - Paddle.width p <=? Ball.x b) &&
  (Ball.x b <=? Paddle.x p + Paddle.width p) &&
  (Paddle.y p - Paddle.height p / 2 <=? Ball.y b) &&
  (Ball.y b <=? Paddle.y p + Paddle.height p / 2).

(** The border of that closed box: the ball is in the box and its [x] or [y]
    equals one of the four bounds. *)
Definition on_box_edge (p : Paddle.t) (b : Ball.t) : bool :=
  spec_in_box p b &&
  ((Paddle.x p - Paddle.width p =? Ball.x b) ||
   (Ball.x b =? Paddle.x p + Paddle.width p) ||
   (Paddle.y p - Paddle.height p / 2 =? Ball.y b) ||
   (Ball.y b =? Paddle.y p + Paddle.height p / 2)).

(** ** Rendering (lines 136-172) *)

(** The six vertices [drawRect] puts in its buffer for a rectangle centred at
    [(x, y)]: [width] and [height] are used as half-extents. *)
Definition drawRect_vertices (x y width height : float) : list (float * float) :=
  [ (x - width, y - height); (x + width, y - height); (x - width, y + height);
    (x - width, y + height); (x + width, y - height); (x + width, y + height) ].

(** Lines 142 and 145: what [render] draws for a paddle. *)
Definition paddle_vertices (p : Paddle.t) : list (float * float) :=
  drawRect_vertices (Paddle.x p) (Paddle.y p) (Paddle.width p) (Paddle.height p).

(** Every vertex has its vertical coordinate in [-1, 1]. *)
Definition inside_field (vs : list (float * float)) : bool :=
  forallb (fun v => (-1 <=? snd v) && (snd v <=? 1)) vs.

(** ** Concrete states *)

Definition with_ball (b : Ball.t) (g : Game) : Game :=
  {| paddles := paddles g; ball := b; keys := keys g |}.

(** The ball just above the top threshold [1 - size], moving up. *)
Definition near_top : Game :=
  with_ball {| Ball.x := 0; Ball.y := 0.981; Ball.dx := 0.01; Ball.dy := 0.01;
               Ball.size := 0.02 |} initial.

(** The ball about to enter the left paddle's box. *)
Definition at_left_paddle : Game :=
  with_ball {| Ball.x := -0.91; Ball.y := 0; Ball.dx := 0.01; Ball.dy := 0.01;
               Ball.size := 0.02 |} initial.

(** The ball about to sit on the upper edge [y = 0 + 0.2 / 2] of the left
    paddle's box, horizontally inside it. *)
Definition on_left_edge : Game :=
  with_ball {| Ball.x := -0.91; Ball.y := 0.1; Ball.dx := 0.01; Ball.dy := 0;
               Ball.size := 0.02 |} initial.

(** The ball past the right end of the field. *)
Definition past_right : Game :=
  with_ball {| Ball.x := 1.0001; Ball.y := 0; Ball.dx := 0.01; Ball.dy := 0.01;
               Ball.size := 0.02 |} initial.

(** ['w'] pressed at the start and held for 45 frames. *)
Definition held_up : Game :=
  play (KeyDown "w" :: repeat Frame 45) initial.

(** ** Drawing (lines 136-172) and the game loop (lines 189-193) *)

(** The calls the program makes on the WebGL context, with the arguments that
    vary; the constants it always passes ([COLOR_BUFFER_BIT], [ARRAY_BUFFER],
    [STATIC_DRAW], [FLOAT], [TRIANGLES]) are left out.  Buffers, the program
    and the two locations are handles. *)
Inductive gl_call : Type :=
| Clear
| UseProgram (program : nat)
| CreateBuffer (buffer : nat)
| BindBuffer (buffer : nat)
| BufferData (vertices : list float)
| EnableVertexAttribArray (location : nat)
| VertexAttribPointer (location size : nat)
| Uniform4fv (location : nat) (color : list float)
| DrawArrays (first count : nat).

(** The context as the program sees it: the calls it has received, oldest
    first, and how many buffers [createBuffer] has handed out; the handle it
    returns is that count. *)
Record GL : Type := mkGL { calls : list gl_call; buffers : nat }.

Definition gl_do (c : gl_call) (gl : GL) : GL :=
  {| calls := calls gl ++ [c]; buffers := buffers gl |}.

(** [gl.createBuffer()]: the context with the call recorded, and the handle. *)
Definition createBuffer (gl : GL) : GL * nat :=
  ({| calls := calls gl ++ [CreateBuffer (buffers gl)];
      buffers := S (buffers gl) |}, buffers gl).

(** The number a [Float32Array] element holds after [x] is stored in it:
    [x] rounded to the nearest binary32 value, ties to even, an infinity
    past the binary32 range, read back as a binary64 number. *)
Definition fround (x : float) : float :=
  match Prim2SF x with
  | S754_finite s m e => SF2Prim (binary_round 24 128 s m e)
  | _ => x
  end.

(** The twelve numbers [drawRect] hands to [Float32Array]. *)
Definition drawRect_array (x y width height : float) : list float :=
  flat_map (fun v => [fst v; snd v]) (drawRect_vertices x y width height).

(** [new Float32Array([...])], line 153: the numbers as the array holds
    them. *)
Definition Float32Array (numbers : list float) : list float :=
  map fround numbers.

(** [function drawRect(gl, program, positionLocation, colorLocation, x, y,
    width, height, color)], lines 152-172. *)
Definition drawRect (gl : GL) (program positionLocation colorLocation : nat)
    (x y width height : float) (color : list float) : GL :=
  let vertices := Float32Array (drawRect_array x y width height) in
  let (gl, buffer) := createBuffer gl in
  let gl := gl_do (BindBuffer buffer) gl in
  let gl := gl_do (BufferData vertices) gl in
  let gl := gl_do (EnableVertexAttribArray positionLocation) gl in
  let gl := gl_do (VertexAttribPointer positionLocation 2) gl in
  let gl := gl_do (Uniform4fv colorLocation color) gl in
  gl_do (DrawArrays 0 6) gl.

(** The colour [[1, 1, 1, 1]] of every rectangle. *)
Definition white : list float := [1; 1; 1; 1].

(** [function render(gl, program, positionLocation, colorLocation)], lines
    136-149, reading the game objects from [g]. *)
Definition render (gl : GL) (program positionLocation colorLocation : nat)
    (g : Game) : GL :=
  let gl := gl_do Clear gl in
  let gl := gl_do (UseProgram program) gl in
  let l := Paddles.left (paddles g) in
  let gl := drawRect gl program positionLocation colorLocation
              (Paddle.x l) (Paddle.y l) (Paddle.width l) (Paddle.height l) white in
  let r := Paddles.right (paddles g) in
  let gl := drawRect gl program positionLocation colorLocation
              (Paddle.x r) (Paddle.y r) (Paddle.width r) (Paddle.height r) white in
  let b := ball g in
  drawRect gl program positionLocation colorLocation
    (Ball.x b) (Ball.y b) (Ball.size b) (Ball.size b) white.

(** One run of [gameLoop] (lines 189-193): [update()], then [render(...)];
    the next run is the next animation frame. *)
Definition gameLoop (program positionLocation colorLocation : nat)
    (st : Game * GL) : Game * GL :=
  let g := update (fst st) in
  (g, render (snd st) program positionLocation colorLocation g).

(** [n] animation frames. *)
Definition frames (program positionLocation colorLocation : nat) (n : nat)
    (st : Game * GL) : Game * GL :=
  Nat.iter n (gameLoop program positionLocation colorLocation) st.

(** The handles created, the handles bound and the draws issued, in order. *)
Definition created (cs : list gl_call) : list nat :=
  flat_map (fun c => match c with CreateBuffer b => [b] | _ => [] end) cs.

Definition bound (cs : list gl_call) : list nat :=
  flat_map (fun c => match c with BindBuffer b => [b] | _ => [] end) cs.

Definition uploads (cs : list gl_call) : list (list float) :=
  flat_map (fun c => match c with BufferData vs => [vs] | _ => [] end) cs.

Definition draws (cs : list gl_call) : list (nat * nat) :=
  flat_map (fun c => match c with DrawArrays f n => [(f, n)] | _ => [] end) cs.

(** ** More names for the statements *)

(** One of the four identifiers [update] reads. *)
Definition control_key (k : string) : bool :=
  String.eqb k "w" || String.eqb k "s" ||
  String.eqb k "ArrowUp" || String.eqb k "ArrowDown".

(** The value the last event of the trace that writes [keys[k]] wrote, if
    there is one. *)
Fixpoint last_write (k : string) (evs : list event) : option bool :=
  match evs with
  | [] => None
  | e :: rest =>
      match last_write k rest with
      | Some b => Some b
      | None =>
          if writes k e
          then Some (match e with KeyDown _ => true | _ => false end)
          else None
      end
  end.

(** The ball is horizontally inside the field. *)
Definition ball_in_field (b : Ball.t) : bool :=
  (-1 <=? Ball.x b) && (Ball.x b <=? 1).

(** The ball has the speed it was served with, in some direction, and is at
    a place inside the field left to right. *)
Definition ball_settled (g : Game) : Prop :=
  (Ball.dx (ball g) = 0.01 \/ Ball.dx (ball g) = -0.01) /\
  (Ball.dy (ball g) = 0.01 \/ Ball.dy (ball g) = -0.01) /\
  ball_in_field (ball g) = true /\
  is_nan (Ball.y (ball g)) = false.

(** The ball just below the bottom threshold [-1 + size], moving down. *)
Definition near_bottom : Game :=
  with_ball {| Ball.x := 0; Ball.y := -0.981; Ball.dx := 0.01; Ball.dy := -0.01;
               Ball.size := 0.02 |} initial.

(** ** Integer reading of binary64 rounding, used by the proofs *)

(** The exponent binary64 gives a number whose bits end at position [e]. *)
Definition fexp64 (e : Z) : Z := fexp prec emax e.

(** The last step of [binary_round_aux]: the number with mantissa [m] and
    exponent [e], or an infinity when [e] is out of range. *)
Definition finish (s : bool) (m e : Z) : spec_float :=
  match m with
  | Z0 => S754_zero s
  | Zpos p => if (e <=? emax - prec)%Z then S754_finite s p e else S754_infinity s
  | Zneg _ => S754_nan
  end.

(** The mantissa [my] of exponent [ey] written at the smaller exponent [ez]. *)
Definition aligned (my : positive) (ey ez : Z) : Z := (Zpos my * 2 ^ (ey - ez))%Z.

(** The first operand of a comparison is less than or equal to the second. *)
Definition le_result (c : option comparison) : Prop := c = Some Lt \/ c = Some Eq.

(** The mantissa of [-1] in binary64: two to the power 52. *)
Definition two52 : positive := 4503599627370496.

(** * Binary64 facts used by the proofs

    The comparisons and operations of primitive floats are specified by the
    functions of [SpecFloat]; the order facts below are read off
    [SFcompare]. *)

Ltac fold_pos_compare :=
  repeat match goal with
    | |- context [PosDef.Pos.compare_cont Eq ?m ?n] =>
        change (PosDef.Pos.compare_cont Eq m n) with (Pos.compare m n)
    | H : context [PosDef.Pos.compare_cont Eq ?m ?n] |- _ =>
        change (PosDef.Pos.compare_cont Eq m n) with (Pos.compare m n) in H
    end.

Ltac order_cases :=
  fold_pos_compare;
  repeat match goal with
    | |- context [(?x ?= ?y)%Z] => destruct (Z.compare_spec x y)
    | H : context [(?x ?= ?y)%Z] |- _ => destruct (Z.compare_spec x y)
    | |- context [(?x ?= ?y)%positive] => destruct (Pos.compare_spec x y)
    | H : context [(?x ?= ?y)%positive] |- _ => destruct (Pos.compare_spec x y)
    end;
  simpl in *; try discriminate; try reflexivity; try lia.

Section SpecOrder.

Implicit Types a b c : spec_float.

Lemma SFcompare_swap a b :
  SFcompare b a = option_map CompOpp (SFcompare a b).
Proof.
  destruct a as [sa|sa| |sa ma ea], b as [sb|sb| |sb mb eb]; simpl;
    try reflexivity; try (destruct sa; reflexivity);
    try (destruct sb; reflexivity);
    try (destruct sa, sb; reflexivity).
  destruct sa, sb; simpl; try reflexivity; order_cases.
Qed.

Lemma SFcompare_defined a b :
  SFcompare a b = None -> SFcompare a a = None \/ SFcompare b b = None.
Proof.
  destruct a as [sa|sa| |sa ma ea], b as [sb|sb| |sb mb eb]; simpl;
    try discriminate; auto.
Qed.

Lemma SFcompare_refl a r : SFcompare a a = Some r -> r = Eq.
Proof.
  destruct a as [sa|sa| |sa ma ea]; simpl; try discriminate.
  - now intros [= <-].
  - destruct sa; now intros [= <-].
  - destruct sa; intros [= <-]; order_cases.
Qed.

Lemma SFcompare_trans a b c r :
  SFcompare a b = Some r -> SFcompare b c = Some r -> SFcompare a c = Some r.
Proof.
  destruct a as [sa|sa| |sa ma ea], b as [sb|sb| |sb mb eb],
    c as [sc|sc| |sc mc ec]; simpl; try discriminate;
    try (destruct sa); try (destruct sb); try (destruct sc);
    try congruence;
    intros [= <-] [= E]; f_equal; revert E; order_cases.
Qed.

Lemma SFcompare_Eq_l a b c r :
  SFcompare a b = Some Eq -> SFcompare b c = Some r -> SFcompare a c = Some r.
Proof.
  destruct a as [sa|sa| |sa ma ea], b as [sb|sb| |sb mb eb],
    c as [sc|sc| |sc mc ec]; simpl; try discriminate;
    try (destruct sa); try (destruct sb); try (destruct sc);
    try congruence;
    intros [= E] [= <-]; f_equal; revert E; order_cases.
Qed.

Lemma SFcompare_Eq_r a b c r :
  SFcompare a b = Some r -> SFcompare b c = Some Eq -> SFcompare a c = Some r.
Proof.
  destruct a as [sa|sa| |sa ma ea], b as [sb|sb| |sb mb eb],
    c as [sc|sc| |sc mc ec]; simpl; try discriminate;
    try (destruct sa); try (destruct sb); try (destruct sc);
    try congruence;
    intros [= <-] [= E]; f_equal; revert E; order_cases.
Qed.

End SpecOrder.

Section FloatOrder.

Implicit Types a b c : float.

Lemma ltb_compare a b :
  (a <? b) = true <-> SFcompare (Prim2SF a) (Prim2SF b) = Some Lt.
Proof.
  rewrite FloatAxioms.ltb_spec. unfold SFltb.
  destruct (SFcompare (Prim2SF a) (Prim2SF b)) as [[]|]; split; congruence.
Qed.

Lemma leb_compare a b :
  (a <=? b) = true <->
  SFcompare (Prim2SF a) (Prim2SF b) = Some Lt \/
  SFcompare (Prim2SF a) (Prim2SF b) = Some Eq.
Proof.
  rewrite FloatAxioms.leb_spec. unfold SFleb.
  destruct (SFcompare (Prim2SF a) (Prim2SF b)) as [[]|];
    split; auto; try discriminate; intros [|]; congruence.
Qed.

Lemma is_nan_compare a :
  is_nan a = false <-> SFcompare (Prim2SF a) (Prim2SF a) = Some Eq.
Proof.
  unfold is_nan. rewrite FloatAxioms.eqb_spec. unfold SFeqb.
  destruct (SFcompare (Prim2SF a) (Prim2SF a)) as [[]|] eqn:E;
    split; simpl; try congruence; intros _;
    apply SFcompare_refl in E; discriminate.
Qed.

Lemma is_nan_spec a : is_nan a = false <-> Prim2SF a <> S754_nan.
Proof.
  rewrite is_nan_compare.
  pose proof (SFcompare_refl (Prim2SF a)) as R.
  destruct (Prim2SF a) as [s|s| |s m e]; simpl in *.
  - split; [discriminate|reflexivity].
  - destruct s; (split; [discriminate|reflexivity]).
  - split; [discriminate|congruence].
  - split; [discriminate|]. intros _. f_equal. exact (R _ eq_refl).
Qed.

Lemma ltb_leb a b : (a <? b) = true -> (a <=? b) = true.
Proof. rewrite ltb_compare, leb_compare. auto. Qed.

Lemma leb_same a : is_nan a = false -> (a <=? a) = true.
Proof. rewrite is_nan_compare, leb_compare. auto. Qed.

Lemma leb_numbers a b :
  (a <=? b) = true -> is_nan a = false /\ is_nan b = false.
Proof.
  rewrite leb_compare, !is_nan_spec. intros H.
  destruct (Prim2SF a), (Prim2SF b); simpl in H;
    (split; [discriminate || (destruct H; discriminate)
            |discriminate || (destruct H; discriminate)]).
Qed.

Lemma ltb_numbers a b :
  (a <? b) = true -> is_nan a = false /\ is_nan b = false.
Proof. intros H. now apply leb_numbers, ltb_leb. Qed.

Lemma ltb_asym a b : (a <? b) = true -> (b <? a) = false.
Proof.
  intros H. apply not_true_is_false. revert H.
  rewrite !ltb_compare, (SFcompare_swap (Prim2SF a) (Prim2SF b)).
  intros ->. discriminate.
Qed.

Lemma leb_not_gt a b : (a <=? b) = true -> (b <? a) = false.
Proof.
  intros H. apply not_true_is_false. revert H.
  rewrite ltb_compare, leb_compare, (SFcompare_swap (Prim2SF a) (Prim2SF b)).
  intros [->| ->]; discriminate.
Qed.

Lemma leb_total a b :
  is_nan a = false -> is_nan b = false -> (a <? b) = false -> (b <=? a) = true.
Proof.
  rewrite !is_nan_compare, <- not_true_iff_false, ltb_compare, leb_compare.
  intros Ha Hb H. rewrite (SFcompare_swap (Prim2SF a) (Prim2SF b)).
  destruct (SFcompare (Prim2SF a) (Prim2SF b)) as [[]|] eqn:E; simpl; auto.
  - now elim H.
  - destruct (SFcompare_defined _ _ E); congruence.
Qed.

Lemma ltb_leb_trans a b c :
  (a <? b) = true -> (b <=? c) = true -> (a <? c) = true.
Proof.
  rewrite !ltb_compare, leb_compare. intros H [H'|H'].
  - eapply SFcompare_trans; eassumption.
  - eapply SFcompare_Eq_r; eassumption.
Qed.

Lemma leb_ltb_trans a b c :
  (a <=? b) = true -> (b <? c) = true -> (a <? c) = true.
Proof.
  rewrite !ltb_compare, leb_compare. intros [H|H] H'.
  - eapply SFcompare_trans; eassumption.
  - eapply SFcompare_Eq_l; eassumption.
Qed.

Lemma leb_chain a b c :
  (a <=? b) = true -> (b <=? c) = true -> (a <=? c) = true.
Proof.
  rewrite !leb_compare. intros [H|H] [H'|H'].
  - left. eapply SFcompare_trans; eassumption.
  - left. eapply SFcompare_Eq_r; eassumption.
  - left. eapply SFcompare_Eq_l; eassumption.
  - right. eapply SFcompare_Eq_l; eassumption.
Qed.

(** The opposite of a positive number is negative, and conversely. *)
Lemma opp_negative a : (0 <? a) = true -> (- a <? 0) = true.
Proof.
  rewrite !ltb_compare, opp_spec.
  change (Prim2SF 0) with (S754_zero false).
  destruct (Prim2SF a) as [s|s| |s m e]; simpl; try discriminate;
    destruct s; simpl; congruence.
Qed.

Lemma opp_positive a : (a <? 0) = true -> (0 <? - a) = true.
Proof.
  rewrite !ltb_compare, opp_spec.
  change (Prim2SF 0) with (S754_zero false).
  destruct (Prim2SF a) as [s|s| |s m e]; simpl; try discriminate;
    destruct s; simpl; congruence.
Qed.

End FloatOrder.

(** Rounding never turns a non-negative mantissa into NaN, whatever the
    format. *)
Section Rounding.

Variables prec emax : Z.

Lemma shr_1_nonneg mrs : (0 <= shr_m mrs)%Z -> (0 <= shr_m (shr_1 mrs))%Z.
Proof.
  destruct mrs as [m r s]; simpl.
  destruct m as [|[p|p|]|[p|p|]]; simpl; lia.
Qed.

Lemma iter_pos_nonneg (p : positive) : forall mrs,
  (0 <= shr_m mrs)%Z -> (0 <= shr_m (SpecFloat.iter_pos shr_1 p mrs))%Z.
Proof.
  induction p as [p IH|p IH|]; simpl; intros mrs H.
  - apply IH, IH, shr_1_nonneg, H.
  - apply IH, IH, H.
  - apply shr_1_nonneg, H.
Qed.

Lemma shr_fexp_nonneg m e l :
  (0 <= m)%Z -> (0 <= shr_m (fst (shr_fexp prec emax m e l)))%Z.
Proof.
  intros H. unfold shr_fexp, shr.
  assert (0 <= shr_m (shr_record_of_loc m l))%Z as H'
    by (destruct l as [|[]]; exact H).
  destruct (_ - e)%Z; simpl; auto using iter_pos_nonneg.
Qed.

Lemma round_nearest_even_nonneg m l :
  (0 <= m)%Z -> (0 <= round_nearest_even m l)%Z.
Proof.
  intros H. destruct l as [|[]]; simpl; try lia.
  destruct (Z.even m); lia.
Qed.

Lemma binary_round_aux_number s m e l :
  (0 <= m)%Z -> binary_round_aux prec emax s m e l <> S754_nan.
Proof.
  intros H. unfold binary_round_aux.
  pose proof (shr_fexp_nonneg m e l H) as H1.
  destruct (shr_fexp prec emax m e l) as [mrs' e']; simpl in H1.
  pose proof (shr_fexp_nonneg _ e' loc_Exact
                (round_nearest_even_nonneg _ (loc_of_shr_record mrs') H1)) as H2.
  destruct (shr_fexp prec emax _ e' loc_Exact) as [mrs'' e'']; simpl in H2.
  destruct (shr_m mrs''); [discriminate| |lia].
  destruct (_ <=? _)%Z; discriminate.
Qed.

Lemma binary_normalize_number m e s :
  binary_normalize prec emax m e s <> S754_nan.
Proof.
  destruct m; simpl; [discriminate| |];
    unfold binary_round; destruct (shl_align _ _ _);
    now apply binary_round_aux_number.
Qed.

Lemma SFadd_number a b :
  a <> S754_nan ->
  match b with S754_zero _ | S754_finite _ _ _ => True | _ => False end ->
  SFadd prec emax a b <> S754_nan.
Proof.
  destruct a as [sa|sa| |sa ma ea], b as [sb|sb| |sb mb eb]; simpl;
    try congruence; try tauto; intros _ _.
  - destruct sa, sb; discriminate.
  - apply binary_normalize_number.
Qed.

End Rounding.

(** Adding a finite number to a number gives a number. *)
Lemma add_number (a b : float) :
  is_nan a = false -> finite_number b = true -> is_nan (a + b) = false.
Proof.
  rewrite !is_nan_spec, add_spec. unfold finite_number. intros Ha Hb.
  apply SFadd_number; [exact Ha|]. destruct (Prim2SF b); auto; discriminate.
Qed.

(** Multiplying by [-1] is exact: it only flips the sign. *)
Section Negation.

Lemma digits2_pos_shift52 (m : positive) :
  Zpos (digits2_pos (two52 * m)) = (Zpos (digits2_pos m) + 52)%Z.
Proof.
  unfold two52. cbv [Pos.mul]. cbn [digits2_pos].
  rewrite !Pos2Z.inj_succ. lia.
Qed.

Lemma shr_fexp_shift52 (m : positive) (e : Z) :
  canonical_mantissa prec emax m e = true ->
  shr_fexp prec emax (Zpos (two52 * m)) (e + -52) loc_Exact =
  ({| shr_m := Zpos m; shr_r := false; shr_s := false |}, e).
Proof.
  unfold canonical_mantissa. intros C%Z.eqb_eq.
  unfold shr_fexp, Zdigits2. rewrite digits2_pos_shift52.
  replace (Zpos (digits2_pos m) + 52 + (e + -52))%Z
    with (Zpos (digits2_pos m) + e)%Z by lia.
  rewrite C. replace (e - (e + -52))%Z with 52%Z by lia.
  unfold shr. replace (e + -52 + 52)%Z with e by lia. reflexivity.
Qed.

Lemma shr_fexp_canonical (m : positive) (e : Z) :
  canonical_mantissa prec emax m e = true ->
  shr_fexp prec emax (Zpos m) e loc_Exact =
  ({| shr_m := Zpos m; shr_r := false; shr_s := false |}, e).
Proof.
  unfold canonical_mantissa. intros C%Z.eqb_eq.
  unfold shr_fexp, Zdigits2. rewrite C, Z.sub_diag. reflexivity.
Qed.

Lemma SF64mul_neg_one (f : spec_float) :
  valid_binary f = true ->
  SF64mul f (S754_finite true two52 (-52)) = SFopp f.
Proof.
  destruct f as [s|s| |s m e]; simpl; intros V.
  - now rewrite xorb_true_r.
  - now rewrite xorb_true_r.
  - reflexivity.
  - apply andb_prop in V as [C B]. unfold SF64mul, SFmul, binary_round_aux.
    rewrite (Pos.mul_comm m), shr_fexp_shift52 by exact C.
    cbn [shr_m loc_of_shr_record round_nearest_even].
    rewrite shr_fexp_canonical by exact C. cbn [shr_m].
    now rewrite B, xorb_true_r.
Qed.

Lemma mul_neg_one (a : float) : a * -1 = - a.
Proof.
  apply Prim2SF_inj. rewrite mul_spec, opp_spec.
  apply SF64mul_neg_one, Prim2SF_valid.
Qed.

End Negation.

(** ** Addition is monotone

    [SFadd] aligns the two mantissas, adds them as integers and rounds the
    sum with [binary_round]; the lemmas below read that rounding as integer
    arithmetic and compare its result with the first operand. *)
Section RoundedSum.

Local Open Scope Z_scope.

(** For binary64, precision 53 and least exponent -1074. *)
Lemma fexp64_eq e : fexp64 e = Z.max (e - 53) (-1074).
Proof. reflexivity. Qed.

(** [Zdigits2] counts bits: it is the binary logarithm plus one. *)
Lemma digits2_pos_size (p : positive) : digits2_pos p = Pos.size p.
Proof. induction p; simpl; congruence. Qed.

Lemma Zdigits2_log2 (m : Z) : 0 < m -> Zdigits2 m = Z.log2 m + 1.
Proof.
  destruct m as [|p|p]; try lia. intros _. simpl. rewrite digits2_pos_size.
  destruct p; simpl; lia.
Qed.

(** A number of [k] bits lies between [2 ^ (k - 1)] and [2 ^ k]. *)
Lemma Zdigits2_bounds (m : Z) :
  0 < m -> 2 ^ (Zdigits2 m - 1) <= m < 2 ^ Zdigits2 m.
Proof.
  intros H. rewrite Zdigits2_log2 by exact H.
  replace (Z.log2 m + 1 - 1) with (Z.log2 m) by lia.
  apply Z.log2_spec, H.
Qed.

Lemma Zdigits2_pos (m : Z) : 0 < m -> 0 < Zdigits2 m.
Proof.
  intros H. rewrite Zdigits2_log2 by exact H.
  pose proof (Z.log2_nonneg m). lia.
Qed.

Lemma Zdigits2_mono (a b : Z) : 0 < a <= b -> Zdigits2 a <= Zdigits2 b.
Proof.
  intros [Ha Hab]. rewrite !Zdigits2_log2 by lia.
  pose proof (Z.log2_le_mono a b Hab). lia.
Qed.

(** Shifting left by [k] adds [k] bits. *)
Lemma Zdigits2_shift (a k : Z) :
  0 < a -> 0 <= k -> Zdigits2 (a * 2 ^ k) = Zdigits2 a + k.
Proof.
  intros Ha Hk.
  assert (0 < a * 2 ^ k)
    by (apply Z.mul_pos_pos; [lia|now apply Z.pow_pos_nonneg]).
  rewrite !Zdigits2_log2 by assumption.
  rewrite Z.log2_mul_pow2 by assumption. lia.
Qed.

Lemma Zdigits2_le (a k : Z) : 0 < a -> a < 2 ^ k -> Zdigits2 a <= k.
Proof.
  intros Ha H. rewrite Zdigits2_log2 by exact Ha.
  apply Z.log2_lt_pow2 in H; lia.
Qed.

Lemma Zdigits2_gt (a k : Z) : 0 < a -> 2 ^ k <= a -> k < Zdigits2 a.
Proof.
  intros Ha H. rewrite Zdigits2_log2 by exact Ha.
  apply Z.log2_le_pow2 in H; lia.
Qed.

(** Shifting right. *)
Lemma shr_1_div2 (r : shr_record) : 0 <= shr_m r -> shr_m (shr_1 r) = shr_m r / 2.
Proof.
  destruct r as [m b c]. simpl. rewrite <- Z.div2_div.
  destruct m as [|[p|p|]|p]; simpl; try reflexivity; lia.
Qed.

(** [n] right shifts divide the mantissa by [2 ^ n]. *)
Lemma iter_shr_1_div (n : positive) : forall r,
  0 <= shr_m r -> shr_m (SpecFloat.iter_pos shr_1 n r) = shr_m r / 2 ^ Zpos n.
Proof.
  induction n as [n IH|n IH|]; intros r H; simpl SpecFloat.iter_pos.
  - assert (0 <= shr_m (shr_1 r))
      by (rewrite shr_1_div2 by exact H; now apply Z.div_pos).
    assert (0 <= shr_m (SpecFloat.iter_pos shr_1 n (shr_1 r)))
      by (rewrite IH by assumption; apply Z.div_pos;
          [assumption|now apply Z.pow_pos_nonneg]).
    rewrite !IH, shr_1_div2 by assumption.
    rewrite !Z.div_div by (try apply Z.pow_pos_nonneg; lia).
    f_equal. rewrite (Pos2Z.inj_xI n).
    replace (2 * Zpos n + 1) with (1 + Zpos n + Zpos n) by lia.
    rewrite !Z.pow_add_r by lia. change (2 ^ 1) with 2. ring.
  - assert (0 <= shr_m (SpecFloat.iter_pos shr_1 n r))
      by (rewrite IH by assumption; apply Z.div_pos;
          [assumption|now apply Z.pow_pos_nonneg]).
    rewrite !IH by assumption.
    rewrite !Z.div_div by (try apply Z.pow_pos_nonneg; lia).
    f_equal. rewrite (Pos2Z.inj_xO n).
    replace (2 * Zpos n) with (Zpos n + Zpos n) by lia.
    rewrite !Z.pow_add_r by lia. ring.
  - rewrite shr_1_div2 by exact H. reflexivity.
Qed.

Lemma shr_record_of_loc_m (m : Z) (l : location) : shr_m (shr_record_of_loc m l) = m.
Proof. destruct l as [|[]]; reflexivity. Qed.

(** [shr_fexp] drops the bits below the canonical exponent, if any. *)
Lemma shr_fexp_spec (m e : Z) (l : location) :
  0 <= m ->
  shr_m (fst (shr_fexp prec emax m e l)) =
    m / 2 ^ Z.max 0 (fexp64 (Zdigits2 m + e) - e) /\
  snd (shr_fexp prec emax m e l) = e + Z.max 0 (fexp64 (Zdigits2 m + e) - e).
Proof.
  intros H. unfold shr_fexp, shr. fold (fexp64 (Zdigits2 m + e)).
  destruct (fexp64 (Zdigits2 m + e) - e) as [|p|p] eqn:E; simpl fst; simpl snd.
  - rewrite shr_record_of_loc_m, Z.max_id. simpl. rewrite Z.div_1_r. lia.
  - rewrite iter_shr_1_div, shr_record_of_loc_m by (now rewrite shr_record_of_loc_m).
    replace (Z.max 0 (Zpos p)) with (Zpos p) by lia. split; reflexivity.
  - rewrite shr_record_of_loc_m.
    replace (Z.max 0 (Zneg p)) with 0 by lia. simpl. rewrite Z.div_1_r. lia.
Qed.

Lemma shr_fexp_exact (m e : Z) :
  fexp64 (Zdigits2 m + e) <= e ->
  shr_fexp prec emax m e loc_Exact =
  ({| shr_m := m; shr_r := false; shr_s := false |}, e).
Proof.
  intros H. unfold shr_fexp, shr. fold (fexp64 (Zdigits2 m + e)).
  destruct (fexp64 (Zdigits2 m + e) - e) as [|p|p] eqn:E; try reflexivity. lia.
Qed.

(** Rounding to nearest keeps the truncated mantissa or adds one to it. *)
Lemma round_nearest_even_bounds (q : Z) (l : location) :
  q <= round_nearest_even q l <= q + 1.
Proof.
  destruct l as [|[]]; simpl; try lia. destruct (Z.even q); lia.
Qed.

(** [binary_round_aux] in integers: truncate at the canonical exponent, round
    to [m1], truncate once more in case [m1] gained a bit, and [finish]. *)
Lemma binary_round_aux_spec (s : bool) (m e : Z) (l : location) :
  0 <= m ->
  exists m1 : Z,
    let n := Z.max 0 (fexp64 (Zdigits2 m + e) - e) in
    m / 2 ^ n <= m1 <= m / 2 ^ n + 1 /\
    (fexp64 (Zdigits2 m + e) <= e -> l = loc_Exact -> m1 = m) /\
    binary_round_aux prec emax s m e l =
      finish s (m1 / 2 ^ Z.max 0 (fexp64 (Zdigits2 m1 + (e + n)) - (e + n)))
        (e + n + Z.max 0 (fexp64 (Zdigits2 m1 + (e + n)) - (e + n))).
Proof.
  intros H. unfold binary_round_aux.
  destruct (shr_fexp_spec m e l H) as [Hm He].
  destruct (shr_fexp prec emax m e l) as [r e1] eqn:Eq. simpl in Hm, He.
  exists (round_nearest_even (shr_m r) (loc_of_shr_record r)).
  cbv zeta. split; [|split].
  - rewrite <- Hm. apply round_nearest_even_bounds.
  - intros E ->. rewrite (shr_fexp_exact m e E) in Eq.
    injection Eq as <- _. reflexivity.
  - assert (0 <= round_nearest_even (shr_m r) (loc_of_shr_record r)) as H1.
    { pose proof (round_nearest_even_bounds (shr_m r) (loc_of_shr_record r)).
      assert (0 <= shr_m r)
        by (rewrite Hm; apply Z.div_pos; [exact H|apply Z.pow_pos_nonneg; lia]).
      lia. }
    destruct (shr_fexp_spec _ e1 loc_Exact H1) as [Hm2 He2].
    destruct (shr_fexp prec emax _ e1 loc_Exact) as [r2 e2]. simpl in Hm2, He2.
    rewrite <- He. rewrite <- Hm2, <- He2. reflexivity.
Qed.

(** [shl_align] multiplies the mantissa by the power of two that brings the
    exponent down to the smaller of the two. *)
Lemma iter_xO_pow (d : positive) (m : positive) :
  Zpos (Pos.iter xO m d) = Zpos m * 2 ^ Zpos d.
Proof.
  induction d as [|d IH] using Pos.peano_ind.
  - simpl. lia.
  - rewrite Pos.iter_succ, Pos2Z.inj_xO, IH, Pos2Z.inj_succ, Z.pow_succ_r by lia.
    ring.
Qed.

Lemma shl_align_spec (mx : positive) (ex ex' : Z) :
  snd (shl_align mx ex ex') = Z.min ex ex' /\
  Zpos (fst (shl_align mx ex ex')) = Zpos mx * 2 ^ (ex - Z.min ex ex').
Proof.
  unfold shl_align. destruct (ex' - ex) as [|d|d] eqn:E; simpl.
  - replace (Z.min ex ex') with ex by lia. rewrite Z.sub_diag. simpl. lia.
  - replace (Z.min ex ex') with ex by lia. rewrite Z.sub_diag. simpl. lia.
  - replace (Z.min ex ex') with ex' by lia.
    replace (ex - ex') with (Zpos d) by lia. split; [reflexivity|apply iter_xO_pow].
Qed.

(** What [binary_round] returns, in terms of integers: the mantissa [m1]
    after the first rounding at the canonical exponent, then the
    renormalisation of an overflowing mantissa. *)
Lemma binary_round_spec (s : bool) (M : positive) (e : Z) :
  exists m1 : Z,
    let ec := fexp64 (Zdigits2 (Zpos M) + e) in
    (ec <= e -> m1 = Zpos M * 2 ^ (e - ec)) /\
    (e < ec -> Zpos M / 2 ^ (ec - e) <= m1 <= Zpos M / 2 ^ (ec - e) + 1) /\
    binary_round prec emax s M e =
      finish s (m1 / 2 ^ Z.max 0 (fexp64 (Zdigits2 m1 + ec) - ec))
        (ec + Z.max 0 (fexp64 (Zdigits2 m1 + ec) - ec)).
Proof.
  unfold binary_round. fold (fexp64 (Zpos (digits2_pos M) + e)).
  change (Zpos (digits2_pos M)) with (Zdigits2 (Zpos M)).
  set (ec := fexp64 (Zdigits2 (Zpos M) + e)).
  destruct (shl_align_spec M e ec) as [He0 Hmz].
  destruct (shl_align M e ec) as [mz e0]. cbn [fst snd] in He0, Hmz.
  rewrite <- He0 in Hmz.
  assert (Zdigits2 (Zpos mz) + e0 = Zdigits2 (Zpos M) + e) as Hd.
  { rewrite Hmz, Zdigits2_shift by lia. lia. }
  destruct (binary_round_aux_spec s (Zpos mz) e0 loc_Exact) as (m1 & Hb & Hx & ->);
    [lia|].
  cbv zeta in Hb. rewrite Hd in Hb, Hx. fold ec in Hb, Hx.
  exists m1. cbv zeta. rewrite Hd. fold ec.
  assert (e0 + Z.max 0 (ec - e0) = ec) as -> by lia.
  split; [|split; [|reflexivity]].
  - intros H. rewrite Hx by (lia || reflexivity). rewrite Hmz. do 2 f_equal. lia.
  - intros H. assert (e0 = e) as -> by lia.
    rewrite Hmz, Z.sub_diag, Z.mul_1_r in Hb.
    replace (Z.max 0 (ec - e)) with (ec - e) in Hb by lia. exact Hb.
Qed.

Lemma pow2_pos (k : Z) : 0 <= k -> 0 < 2 ^ k.
Proof. intros. now apply Z.pow_pos_nonneg. Qed.

(** Dropping fewer bits than a positive number has leaves it positive. *)
Lemma div_pow2_pos (m n : Z) : 0 < m -> 0 <= n < Zdigits2 m -> 0 < m / 2 ^ n.
Proof.
  intros Hm Hn. apply Z.div_str_pos. split; [now apply pow2_pos|].
  destruct (Zdigits2_bounds m Hm) as [Hlo _].
  eapply Z.le_trans; [|exact Hlo]. apply Z.pow_le_mono_r; lia.
Qed.

(** Renormalisation keeps a positive mantissa positive. *)
Lemma renormalise_pos (m1 e1 : Z) :
  0 < m1 -> -1074 <= e1 ->
  0 < m1 / 2 ^ Z.max 0 (fexp64 (Zdigits2 m1 + e1) - e1).
Proof.
  intros Hm He. apply div_pow2_pos; [exact Hm|].
  pose proof (Zdigits2_pos m1 Hm). rewrite fexp64_eq. lia.
Qed.

(** Below [2 ^ 53] there is nothing to renormalise; at [2 ^ 53] one bit goes. *)
Lemma renormalise_small (m1 e1 : Z) :
  0 <= m1 < 2 ^ 53 -> -1074 <= e1 ->
  Z.max 0 (fexp64 (Zdigits2 m1 + e1) - e1) = 0.
Proof.
  intros [H0 Hm] He. rewrite fexp64_eq.
  destruct (Z.eq_dec m1 0) as [->|N]; [change (Zdigits2 0) with 0; lia|].
  pose proof (Zdigits2_le m1 53 ltac:(lia) Hm). lia.
Qed.

Lemma renormalise_full (e1 : Z) :
  -1074 <= e1 ->
  Z.max 0 (fexp64 (Zdigits2 (2 ^ 53) + e1) - e1) = 1.
Proof. intros He. rewrite fexp64_eq. change (Zdigits2 (2 ^ 53)) with 54. lia. Qed.

(** What validity says about a finite binary64 number. *)
Lemma valid_finite (s : bool) (m : positive) (e : Z) :
  valid_binary (S754_finite s m e) = true ->
  fexp64 (Zdigits2 (Zpos m) + e) = e /\ -1074 <= e <= 971 /\
  Zdigits2 (Zpos m) <= 53 /\ (-1074 < e -> Zdigits2 (Zpos m) = 53).
Proof.
  unfold valid_binary, bounded, canonical_mantissa. intros [C B]%andb_prop.
  apply Z.eqb_eq in C. apply Z.leb_le in B.
  change (Zpos (digits2_pos m)) with (Zdigits2 (Zpos m)) in C.
  fold (fexp64 (Zdigits2 (Zpos m) + e)) in C.
  change (emax - prec) with 971 in B.
  split; [exact C|]. rewrite fexp64_eq in C. lia.
Qed.

(** Comparing a finite number with a result of [finish]: numbers of one sign
    compare by exponent first and mantissa next. *)
Lemma compare_finish_pos (my : positive) (ey m2 e2 : Z) :
  0 < m2 -> ey < e2 \/ (ey = e2 /\ Zpos my <= m2) ->
  le_result (SFcompare (S754_finite false my ey) (finish false m2 e2)).
Proof.
  intros Hm H. destruct m2 as [|p|p]; try lia. unfold finish, le_result.
  destruct (e2 <=? emax - prec); simpl; [|now left].
  change (PosDef.Pos.compare_cont Eq my p) with (Pos.compare my p).
  destruct (Z.compare_spec ey e2); [|now left|lia].
  destruct (Pos.compare_spec my p); [now right|now left|lia].
Qed.

Lemma compare_finish_neg (my : positive) (ey m2 e2 : Z) :
  0 <= m2 -> e2 <= 971 -> e2 < ey \/ (e2 = ey /\ m2 <= Zpos my) ->
  le_result (SFcompare (S754_finite true my ey) (finish true m2 e2)).
Proof.
  intros Hm He H. destruct m2 as [|p|p]; try lia; unfold finish, le_result.
  - now left.
  - change (emax - prec) with 971.
    destruct (Z.leb_spec e2 971); [|lia]. simpl.
    change (PosDef.Pos.compare_cont Eq my p) with (Pos.compare my p).
    destruct (Z.compare_spec ey e2); [|lia|now left].
    destruct (Pos.compare_spec my p); simpl; [now right|lia|now left].
Qed.

Lemma compare_finish_mixed (my : positive) (ey m2 e2 : Z) :
  0 <= m2 ->
  SFcompare (S754_finite true my ey) (finish false m2 e2) = Some Lt.
Proof.
  intros Hm. destruct m2 as [|p|p]; try lia; unfold finish;
    [reflexivity|destruct (e2 <=? emax - prec); reflexivity].
Qed.

Section Sum.

Variables (my : positive) (ey ez : Z).
Hypothesis canonical : fexp64 (Zdigits2 (Zpos my) + ey) = ey.
Hypothesis ey_range : -1074 <= ey <= 971.
Hypothesis my_digits : Zdigits2 (Zpos my) <= 53.
Hypothesis my_normal : -1074 < ey -> Zdigits2 (Zpos my) = 53.
Hypothesis ez_le : ez <= ey.

Let Y : Z := aligned my ey ez.

Lemma aligned_digits : Zdigits2 Y + ez = Zdigits2 (Zpos my) + ey.
Proof. unfold Y, aligned. rewrite Zdigits2_shift by lia. lia. Qed.

Lemma aligned_pos : 0 < Y.
Proof. unfold Y, aligned. apply Z.mul_pos_pos; [lia|apply pow2_pos; lia]. Qed.

(** Rounding a magnitude that is at least [y]'s gives at least [y]. *)
Lemma round_sum_ge (M : positive) :
  Y <= Zpos M ->
  le_result (SFcompare (S754_finite false my ey) (binary_round prec emax false M ez)).
Proof.
  intros HM. pose proof aligned_pos as HY. pose proof aligned_digits as HD.
  destruct (binary_round_spec false M ez) as (m1 & Hle & Hgt & ->).
  cbv zeta in Hle, Hgt. set (ec := fexp64 (Zdigits2 (Zpos M) + ez)) in *.
  assert (Zdigits2 (Zpos my) + ey <= Zdigits2 (Zpos M) + ez) as Hdig.
  { rewrite <- HD. pose proof (Zdigits2_mono Y (Zpos M)). lia. }
  assert (ey <= ec) as Hec.
  { unfold ec. rewrite <- canonical, !fexp64_eq. lia. }
  assert (ec = ey -> Zpos my <= m1) as Hmy.
  { intros E. destruct (Z.le_gt_cases ec ez) as [C|C].
    - rewrite (Hle C). assert (ez = ey) as E' by lia.
      unfold Y, aligned in HM. rewrite E' in HM |- *. rewrite E, Z.sub_diag in *.
      change (2 ^ 0) with 1 in *. lia.
    - specialize (Hgt C). rewrite E in Hgt.
      assert (Zpos my <= Zpos M / 2 ^ (ey - ez)); [|lia].
      apply Z.div_le_lower_bound; [apply pow2_pos; lia|].
      unfold Y, aligned in HM. lia. }
  assert (0 < m1) as Hm1.
  { destruct (Z.eq_dec ec ey) as [E|N]; [specialize (Hmy E); lia|].
    destruct (Z.le_gt_cases ec ez) as [C|C].
    - rewrite (Hle C). apply Z.mul_pos_pos; [lia|apply pow2_pos; lia].
    - specialize (Hgt C).
      assert (0 < Zpos M / 2 ^ (ec - ez)); [|lia].
      apply div_pow2_pos; [lia|]. split; [lia|].
      unfold ec in *. rewrite fexp64_eq in *. lia. }
  pose proof (renormalise_pos m1 ec Hm1 ltac:(lia)) as Hm2.
  apply compare_finish_pos; [exact Hm2|].
  destruct (Z.eq_dec (Z.max 0 (fexp64 (Zdigits2 m1 + ec) - ec)) 0) as [E|N].
  - destruct (Z.eq_dec ec ey) as [E'|N']; [|left; lia].
    right. rewrite E, Z.add_0_r. split; [congruence|].
    simpl. rewrite Z.div_1_r. auto.
  - left. lia.
Qed.

(** Rounding a smaller magnitude than [y]'s gives at most [y]'s. *)
Lemma round_diff_le (A : positive) :
  Zpos A < Y ->
  le_result (SFcompare (S754_finite true my ey) (binary_round prec emax true A ez)).
Proof.
  intros HA. pose proof aligned_pos as HY. pose proof aligned_digits as HD.
  destruct (binary_round_spec true A ez) as (m1 & Hle & Hgt & ->).
  cbv zeta in Hle, Hgt. set (ec := fexp64 (Zdigits2 (Zpos A) + ez)) in *.
  assert (Zdigits2 (Zpos A) + ez <= Zdigits2 (Zpos my) + ey) as Hdig.
  { rewrite <- HD. pose proof (Zdigits2_mono (Zpos A) Y). lia. }
  assert (-1074 <= ec <= ey) as Hec.
  { unfold ec. rewrite <- canonical. rewrite !fexp64_eq. lia. }
  assert (0 <= m1 <= 2 ^ 53 /\ (ec = ey -> m1 <= Zpos my)) as [Hm1 Hmy].
  { destruct (Z.le_gt_cases ec ez) as [C|C].
    - rewrite (Hle C). split.
      + assert (0 < Zpos A * 2 ^ (ez - ec))
          by (apply Z.mul_pos_pos; [lia|apply pow2_pos; lia]).
        assert (Zpos A * 2 ^ (ez - ec) < 2 ^ 53); [|lia].
        apply Z.log2_lt_pow2; [assumption|].
        pose proof (Zdigits2_log2 _ H) as L.
        rewrite Zdigits2_shift in L by lia.
        unfold ec in *. rewrite fexp64_eq in *. lia.
      + intros E. assert (ez = ey) as E' by lia.
        unfold Y, aligned in HA. rewrite E' in HA |- *. rewrite E, Z.sub_diag in *.
        simpl in HA |- *. lia.
    - specialize (Hgt C).
      assert (0 <= Zpos A / 2 ^ (ec - ez))
        by (apply Z.div_pos; [lia|apply pow2_pos; lia]).
      split.
      + assert (Zpos A / 2 ^ (ec - ez) < 2 ^ 53); [|lia].
        apply Z.div_lt_upper_bound; [apply pow2_pos; lia|].
        rewrite <- Z.pow_add_r by lia.
        destruct (Zdigits2_bounds (Zpos A) ltac:(lia)) as [_ Hhi].
        eapply Z.lt_le_trans; [exact Hhi|].
        apply Z.pow_le_mono_r; [lia|].
        unfold ec in *. rewrite fexp64_eq in *. lia.
      + intros E. rewrite E in Hgt.
        assert (Zpos A / 2 ^ (ey - ez) < Zpos my); [|lia].
        apply Z.div_lt_upper_bound; [apply pow2_pos; lia|].
        unfold Y, aligned in HA. lia. }
  destruct (Z.eq_dec m1 (2 ^ 53)) as [E|N].
  - rewrite E, renormalise_full by lia.
    assert (ec <> ey) as N.
    { intros E'. specialize (Hmy E').
      destruct (Zdigits2_bounds (Zpos my) ltac:(lia)) as [_ Hhi].
      assert (2 ^ Zdigits2 (Zpos my) <= 2 ^ 53)
        by (apply Z.pow_le_mono_r; lia).
      lia. }
    apply compare_finish_neg; [now vm_compute|lia|].
    destruct (Z.eq_dec (ec + 1) ey) as [E'|N']; [right|left; lia].
    split; [exact E'|]. change (2 ^ 53 / 2 ^ 1) with (2 ^ 52).
    destruct (Zdigits2_bounds (Zpos my) ltac:(lia)) as [Hlo _].
    rewrite my_normal in Hlo by lia. exact Hlo.
  - rewrite renormalise_small by lia. simpl (2 ^ 0). rewrite Z.div_1_r, Z.add_0_r.
    apply compare_finish_neg; [lia|lia|].
    destruct (Z.eq_dec ec ey) as [E'|N']; [right; auto|left; lia].
Qed.

(** Rounding any positive magnitude gives more than a negative [y]. *)
Lemma round_pos_gt (M : positive) :
  SFcompare (S754_finite true my ey) (binary_round prec emax false M ez) = Some Lt.
Proof.
  destruct (binary_round_spec false M ez) as (m1 & Hle & Hgt & ->).
  cbv zeta in Hle, Hgt. set (ec := fexp64 (Zdigits2 (Zpos M) + ez)) in *.
  apply compare_finish_mixed, Z.div_pos; [|apply pow2_pos; lia].
  destruct (Z.le_gt_cases ec ez) as [C|C].
  - rewrite (Hle C). apply Z.mul_nonneg_nonneg; [lia|].
    apply Z.lt_le_incl, pow2_pos. lia.
  - specialize (Hgt C).
    assert (0 <= Zpos M / 2 ^ (ec - ez))
      by (apply Z.div_pos; [lia|apply pow2_pos; lia]).
    lia.
Qed.

End Sum.

(** Adding a positive number never gives less. *)
Lemma SF64add_positive_ge (y d : spec_float) :
  valid_binary y = true -> valid_binary d = true ->
  SFcompare (S754_zero false) d = Some Lt ->
  y <> S754_nan -> y <> S754_infinity true ->
  le_result (SFcompare y (SF64add y d)).
Proof.
  intros Vy Vd Hd Hnan Hinf. unfold le_result.
  destruct d as [sd|sd| |sd md ed]; simpl in Hd; try discriminate;
    destruct sd; try discriminate; clear Hd;
    destruct y as [sy|sy| |sy my ey]; try congruence; simpl;
    try (destruct sy; try congruence; auto; fail).
  destruct (valid_finite _ _ _ Vy) as (Hc & Hr & Hdig & Hnorm).
  unfold SF64add, SFadd.
  set (ez := Z.min ey ed).
  destruct (shl_align_spec my ey ez) as [_ Hy].
  destruct (shl_align_spec md ed ez) as [_ Hdd].
  replace (Z.min ey ez) with ez in Hy by lia.
  replace (Z.min ed ez) with ez in Hdd by lia.
  assert (0 < Zpos (fst (shl_align md ed ez))) as Hpos by lia.
  set (Y := Zpos (fst (shl_align my ey ez))) in *.
  set (D := Zpos (fst (shl_align md ed ez))) in *.
  assert (ez <= ey) as Hez by lia.
  destruct sy; unfold cond_Zopp.
  - destruct (- Y + D) as [|M|A] eqn:E; unfold binary_normalize.
    + now left.
    + left. now apply round_pos_gt.
    + apply round_diff_le; try assumption. unfold aligned. rewrite <- Hy. lia.
  - destruct (Y + D) as [|M|A] eqn:E; unfold binary_normalize; try lia.
    apply round_sum_ge; try assumption. unfold aligned. rewrite <- Hy. lia.
Qed.

End RoundedSum.

(** Adding a positive number moves a binary64 number up, or leaves it where
    it is when the sum rounds back to it. *)
Lemma add_positive_ge (y d : float) :
  (0 <? d) = true -> is_nan y = false -> Prim2SF y <> S754_infinity true ->
  (y <=? y + d) = true.
Proof.
  rewrite ltb_compare, is_nan_spec, leb_compare, add_spec.
  change (Prim2SF 0) with (S754_zero false). intros Hd Hy Hinf.
  apply SF64add_positive_ge; auto using Prim2SF_valid.
Qed.

Lemma ltb_add_positive (c y d : float) :
  (c <? y) = true -> (0 <? d) = true -> (c <? y + d) = true.
Proof.
  intros Hc Hd. eapply ltb_leb_trans; [exact Hc|].
  apply add_positive_ge; [exact Hd|now destruct (ltb_numbers _ _ Hc)|].
  intros E. apply ltb_compare in Hc. rewrite E in Hc.
  destruct (Prim2SF c) as [s|s| |s m e]; simpl in Hc;
    try destruct s; discriminate.
Qed.

(** * The stages of [update], one field at a time *)

Lemma paddle_update (g : Game) (s : side) :
  paddle s (update g) =
  clamp (advance (steer (up_key s) (down_key s) (keys g) (paddle s g))).
Proof. destruct s; reflexivity. Qed.

Lemma ball_update (g : Game) : ball (update g) = recentre (collided g).
Proof. reflexivity. Qed.

Lemma steer_frame (up down : string) (ks : Keys) (p : Paddle.t) :
  Paddle.x (steer up down ks p) = Paddle.x p /\
  Paddle.y (steer up down ks p) = Paddle.y p /\
  Paddle.width (steer up down ks p) = Paddle.width p /\
  Paddle.height (steer up down ks p) = Paddle.height p.
Proof.
  unfold steer. destruct (isPressed ks up); [|destruct (isPressed ks down)];
    repeat split.
Qed.

Lemma steer_dy (up down : string) (ks : Keys) (p : Paddle.t) :
  Paddle.dy (steer up down ks p) =
  if isPressed ks up then 0.02 else if isPressed ks down then -0.02 else 0.
Proof.
  unfold steer. destruct (isPressed ks up); [|destruct (isPressed ks down)];
    reflexivity.
Qed.

Lemma steer_dy_finite (up down : string) (ks : Keys) (p : Paddle.t) :
  finite_number (Paddle.dy (steer up down ks p)) = true.
Proof.
  rewrite steer_dy. destruct (isPressed ks up); [|destruct (isPressed ks down)];
    reflexivity.
Qed.

Lemma paddle_update_frame (g : Game) (s : side) :
  Paddle.x (paddle s (update g)) = Paddle.x (paddle s g) /\
  Paddle.width (paddle s (update g)) = Paddle.width (paddle s g) /\
  Paddle.height (paddle s (update g)) = Paddle.height (paddle s g).
Proof.
  rewrite paddle_update.
  destruct (steer_frame (up_key s) (down_key s) (keys g) (paddle s g))
    as (Hx & _ & Hw & Hh).
  repeat split; assumption.
Qed.

Lemma paddle_update_dy (g : Game) (s : side) :
  Paddle.dy (paddle s (update g)) =
  Paddle.dy (steer (up_key s) (down_key s) (keys g) (paddle s g)).
Proof. rewrite paddle_update. reflexivity. Qed.

Lemma paddle_update_y (g : Game) (s : side) :
  Paddle.y (paddle s (update g)) =
  Math_max (lower_bound (paddle s g))
    (Math_min (upper_bound (paddle s g))
       (Paddle.y (paddle s g) + Paddle.dy (paddle s (update g)))).
Proof.
  rewrite paddle_update_dy, paddle_update.
  destruct (steer_frame (up_key s) (down_key s) (keys g) (paddle s g))
    as (_ & Hy & _ & Hh).
  unfold clamp, advance, lower_bound, upper_bound; simpl.
  now rewrite Hy, Hh.
Qed.

(** ** Clamping *)

Lemma Math_min_below (a b : float) :
  is_nan a = false -> is_nan b = false ->
  is_nan (Math_min a b) = false /\ (Math_min a b <=? a) = true.
Proof.
  intros Ha Hb. unfold Math_min. rewrite Ha, Hb. simpl.
  destruct (a <? b) eqn:E1; [auto using leb_same|].
  destruct (b <? a) eqn:E2; [auto using ltb_leb|].
  destruct (get_sign a); auto using leb_same, leb_total.
Qed.

Lemma Math_max_between (a b c : float) :
  (a <=? c) = true -> (b <=? c) = true ->
  (a <=? Math_max a b) = true /\ (Math_max a b <=? c) = true.
Proof.
  intros Hac Hbc.
  destruct (leb_numbers _ _ Hac) as [Ha _], (leb_numbers _ _ Hbc) as [Hb _].
  unfold Math_max. rewrite Ha, Hb. simpl.
  destruct (a <? b) eqn:E1; [auto using ltb_leb|].
  destruct (b <? a) eqn:E2; [auto using leb_same|].
  destruct (get_sign a); auto using leb_same, leb_total.
Qed.

Lemma clamp_range (lo hi v : float) :
  (lo <=? hi) = true -> is_nan v = false ->
  (lo <=? Math_max lo (Math_min hi v)) = true /\
  (Math_max lo (Math_min hi v) <=? hi) = true.
Proof.
  intros Hord Hv. destruct (leb_numbers _ _ Hord) as [_ Hhi].
  destruct (Math_min_below hi v Hhi Hv) as [_ Hm].
  now apply Math_max_between.
Qed.

Lemma update_within_bounds (g : Game) (s : side) :
  is_nan (Paddle.y (paddle s g)) = false ->
  bounds_ordered (paddle s g) = true ->
  within_bounds (paddle s (update g)) = true.
Proof.
  intros Hy Hord. unfold within_bounds, lower_bound, upper_bound.
  destruct (paddle_update_frame g s) as (_ & _ & ->).
  rewrite paddle_update_y, paddle_update_dy.
  apply andb_true_intro, clamp_range; [exact Hord|].
  apply add_number; [exact Hy|apply steer_dy_finite].
Qed.

(** ** The ball *)

Lemma bounce_wall_position (b : Ball.t) :
  Ball.x (bounce_wall b) = Ball.x b /\ Ball.y (bounce_wall b) = Ball.y b /\
  Ball.dx (bounce_wall b) = Ball.dx b /\ Ball.size (bounce_wall b) = Ball.size b.
Proof. unfold bounce_wall. destruct (hits_wall b); repeat split. Qed.

Lemma bounce_left_position (l : Paddle.t) (b : Ball.t) :
  Ball.x (bounce_left l b) = Ball.x b /\ Ball.y (bounce_left l b) = Ball.y b /\
  Ball.dy (bounce_left l b) = Ball.dy b /\ Ball.size (bounce_left l b) = Ball.size b.
Proof. unfold bounce_left. destruct (hits_left l b); repeat split. Qed.

Lemma bounce_right_position (r : Paddle.t) (b : Ball.t) :
  Ball.x (bounce_right r b) = Ball.x b /\ Ball.y (bounce_right r b) = Ball.y b /\
  Ball.dy (bounce_right r b) = Ball.dy b /\ Ball.size (bounce_right r b) = Ball.size b.
Proof. unfold bounce_right. destruct (hits_right r b); repeat split. Qed.

(** Tests that read only the position give the same answer on balls at the
    same place. *)
Lemma hits_left_position (l : Paddle.t) (b b' : Ball.t) :
  Ball.x b' = Ball.x b -> Ball.y b' = Ball.y b -> hits_left l b' = hits_left l b.
Proof. unfold hits_left. now intros -> ->. Qed.

Lemma hits_right_position (r : Paddle.t) (b b' : Ball.t) :
  Ball.x b' = Ball.x b -> Ball.y b' = Ball.y b -> hits_right r b' = hits_right r b.
Proof. unfold hits_right. now intros -> ->. Qed.

Lemma is_out_position (b b' : Ball.t) :
  Ball.x b' = Ball.x b -> is_out b' = is_out b.
Proof. unfold is_out. now intros ->. Qed.

Lemma collided_position (g : Game) :
  Ball.x (collided g) = Ball.x (integrated g) /\
  Ball.y (collided g) = Ball.y (integrated g) /\
  Ball.size (collided g) = Ball.size (ball g).
Proof.
  unfold collided.
  destruct (bounce_right_position (paddle Right (update g))
              (bounce_left (paddle Left (update g)) (bounce_wall (integrated g))))
    as (-> & -> & _ & ->).
  destruct (bounce_left_position (paddle Left (update g))
              (bounce_wall (integrated g))) as (-> & -> & _ & ->).
  destruct (bounce_wall_position (integrated g)) as (-> & -> & _ & ->).
  repeat split.
Qed.

Lemma collided_dy (g : Game) :
  Ball.dy (collided g) =
  if hits_wall (integrated g) then - Ball.dy (ball g) else Ball.dy (ball g).
Proof.
  unfold collided.
  destruct (bounce_right_position (paddle Right (update g))
              (bounce_left (paddle Left (update g)) (bounce_wall (integrated g))))
    as (_ & _ & -> & _).
  destruct (bounce_left_position (paddle Left (update g))
              (bounce_wall (integrated g))) as (_ & _ & -> & _).
  unfold bounce_wall. destruct (hits_wall (integrated g)); simpl;
    [apply mul_neg_one|reflexivity].
Qed.

Lemma collided_dx (g : Game) :
  Ball.dx (collided g) =
  let d := Ball.dx (ball g) in
  let d := if hits_left (paddle Left (update g)) (integrated g) then - d else d in
  if hits_right (paddle Right (update g)) (integrated g) then - d else d.
Proof.
  unfold collided.
  destruct (bounce_wall_position (integrated g)) as (Hx & Hy & Hdx & _).
  set (b1 := bounce_wall (integrated g)) in *.
  destruct (bounce_left_position (paddle Left (update g)) b1) as (Hx' & Hy' & _).
  rewrite <- (hits_left_position _ _ b1 Hx Hy).
  rewrite <- (hits_right_position _ (integrated g)
                (bounce_left (paddle Left (update g)) b1))
    by congruence.
  unfold bounce_right, bounce_left.
  destruct (hits_left _ b1); simpl;
    destruct (hits_right _ _); simpl; rewrite ?mul_neg_one, ?Hdx; reflexivity.
Qed.

(** A ball above the top threshold and moving up is above it after the
    integration too. *)
Lemma above_top_hits_wall (g : Game) :
  (1 - Ball.size (ball g) <? Ball.y (ball g)) = true ->
  (0 <? Ball.dy (ball g)) = true ->
  hits_wall (integrated g) = true.
Proof.
  intros Hy Hdy. unfold hits_wall, integrated, move, gtb. simpl.
  now rewrite (ltb_add_positive _ _ _ Hy Hdy).
Qed.

Lemma recentre_dy (b : Ball.t) :
  Ball.dy (recentre b) = Ball.dy b /\ Ball.size (recentre b) = Ball.size b.
Proof. unfold recentre. destruct (is_out b); split; reflexivity. Qed.

Lemma update_is_out (g : Game) : is_out (collided g) = is_out (integrated g).
Proof. apply is_out_position, collided_position. Qed.

Lemma update_ball_dy (g : Game) :
  Ball.dy (ball (update g)) =
  if hits_wall (integrated g) then - Ball.dy (ball g) else Ball.dy (ball g).
Proof.
  rewrite ball_update. destruct (recentre_dy (collided g)) as [-> _].
  apply collided_dy.
Qed.

Lemma update_ball_dx (g : Game) :
  Ball.dx (ball (update g)) =
  if is_out (integrated g) then - Ball.dx (collided g) else Ball.dx (collided g).
Proof.
  rewrite ball_update. unfold recentre. rewrite update_is_out.
  destruct (is_out (integrated g)); reflexivity.
Qed.

Lemma update_ball_position (g : Game) :
  is_out (integrated g) = false ->
  Ball.x (ball (update g)) = Ball.x (ball g) + Ball.dx (ball g) /\
  Ball.y (ball (update g)) = Ball.y (ball g) + Ball.dy (ball g).
Proof.
  intros H. rewrite ball_update. unfold recentre. rewrite update_is_out, H.
  destruct (collided_position g) as (-> & -> & _). split; reflexivity.
Qed.

(** ** Paddle boxes that lie in the field and do not overlap *)

Lemma hits_left_x (l : Paddle.t) (b : Ball.t) :
  hits_left l b = true ->
  (Paddle.x l - Paddle.width l <? Ball.x b) = true /\
  (Ball.x b <? Paddle.x l + Paddle.width l) = true.
Proof. unfold hits_left, gtb. rewrite !andb_true_iff. tauto. Qed.

Lemma hits_right_x (r : Paddle.t) (b : Ball.t) :
  hits_right r b = true ->
  (Paddle.x r - Paddle.width r <? Ball.x b) = true /\
  (Ball.x b <? Paddle.x r + Paddle.width r) = true.
Proof. unfold hits_right, gtb. rewrite !andb_true_iff. tauto. Qed.

Lemma between_not_out (lo hi : float) (b : Ball.t) :
  (-1 <=? lo) = true -> (hi <=? 1) = true ->
  (lo <? Ball.x b) = true -> (Ball.x b <? hi) = true ->
  is_out b = false.
Proof.
  intros Hlo Hhi Hl Hh. unfold is_out, gtb. apply orb_false_intro.
  - apply ltb_asym. eapply ltb_leb_trans; eassumption.
  - apply ltb_asym. eapply leb_ltb_trans; eassumption.
Qed.

Section Geometry.

Variable g : Game.
Hypothesis left_in_field : box_in_field (paddle Left g) = true.
Hypothesis right_in_field : box_in_field (paddle Right g) = true.

Lemma hit_not_out (s : side) :
  hits s (paddle s (update g)) (integrated g) = true ->
  is_out (integrated g) = false.
Proof.
  intros H.
  assert (box_in_field (paddle s g) = true) as B by (destruct s; assumption).
  apply andb_prop in B as [Blo Bhi].
  assert ((Paddle.x (paddle s (update g)) - Paddle.width (paddle s (update g))
             <? Ball.x (integrated g)) = true /\
          (Ball.x (integrated g)
             <? Paddle.x (paddle s (update g)) + Paddle.width (paddle s (update g)))
          = true) as [Hl Hh]
    by (destruct s; [apply hits_left_x|apply hits_right_x]; exact H).
  destruct (paddle_update_frame g s) as (Ex & Ew & _). rewrite Ex, Ew in Hl, Hh.
  eapply between_not_out; eassumption.
Qed.

Lemma out_hits_nothing (s : side) :
  is_out (integrated g) = true ->
  hits s (paddle s (update g)) (integrated g) = false.
Proof.
  intros H. destruct (hits s _ _) eqn:E; [|reflexivity].
  apply hit_not_out in E. congruence.
Qed.

Hypothesis apart : boxes_apart g = true.

Lemma hit_one_paddle_only :
  hits_left (paddle Left (update g)) (integrated g) = true ->
  hits_right (paddle Right (update g)) (integrated g) = true ->
  False.
Proof.
  intros [_ Hl]%hits_left_x [Hr _]%hits_right_x.
  destruct (paddle_update_frame g Left) as (Ex & Ew & _). rewrite Ex, Ew in Hl.
  destruct (paddle_update_frame g Right) as (Ex' & Ew' & _). rewrite Ex', Ew' in Hr.
  pose proof (ltb_leb_trans _ _ _ Hl apart) as H.
  apply ltb_asym in H. congruence.
Qed.

Lemma hit_negates_dx (s : side) :
  hits s (paddle s (update g)) (integrated g) = true ->
  Ball.dx (ball (update g)) = - Ball.dx (ball g).
Proof.
  intros H. rewrite update_ball_dx, (hit_not_out s H), collided_dx.
  destruct s; unfold hits in H; cbv zeta.
  - rewrite H.
    destruct (hits_right _ _) eqn:E;
      [elim (hit_one_paddle_only H E)|reflexivity].
  - rewrite H.
    destruct (hits_left _ _) eqn:E;
      [elim (hit_one_paddle_only E H)|reflexivity].
Qed.

(** A ball in the closed box of a paddle is in the field, and not strictly
    inside the box of the other paddle. *)
Lemma in_box_not_out (s : side) :
  spec_in_box (paddle s (update g)) (integrated g) = true ->
  is_out (integrated g) = false.
Proof.
  unfold spec_in_box. rewrite !andb_true_iff. intros [[[Hl Hh] _] _].
  assert (box_in_field (paddle s g) = true) as B by (destruct s; assumption).
  apply andb_prop in B as [Blo Bhi].
  destruct (paddle_update_frame g s) as (Ex & Ew & _). rewrite Ex, Ew in Hl, Hh.
  unfold is_out, gtb. apply orb_false_intro; apply leb_not_gt.
  - eapply leb_chain; eassumption.
  - eapply leb_chain; eassumption.
Qed.

Lemma in_left_box_misses_right :
  spec_in_box (paddle Left (update g)) (integrated g) = true ->
  hits_right (paddle Right (update g)) (integrated g) = false.
Proof.
  unfold spec_in_box. rewrite !andb_true_iff. intros [[[_ Hh] _] _].
  destruct (hits_right _ _) eqn:E; [|reflexivity].
  apply hits_right_x in E as [Hr _].
  destruct (paddle_update_frame g Left) as (Ex & Ew & _). rewrite Ex, Ew in Hh.
  destruct (paddle_update_frame g Right) as (Ex' & Ew' & _). rewrite Ex', Ew' in Hr.
  pose proof (leb_not_gt _ _ (leb_chain _ _ _ Hh apart)) as H. congruence.
Qed.

Lemma in_right_box_misses_left :
  spec_in_box (paddle Right (update g)) (integrated g) = true ->
  hits_left (paddle Left (update g)) (integrated g) = false.
Proof.
  unfold spec_in_box. rewrite !andb_true_iff. intros [[[Hl _] _] _].
  destruct (hits_left _ _) eqn:E; [|reflexivity].
  apply hits_left_x in E as [_ Hr].
  destruct (paddle_update_frame g Left) as (Ex & Ew & _). rewrite Ex, Ew in Hr.
  destruct (paddle_update_frame g Right) as (Ex' & Ew' & _). rewrite Ex', Ew' in Hl.
  pose proof (leb_not_gt _ _ (leb_chain _ _ _ apart Hl)) as H. congruence.
Qed.

(** A ball in the closed box of a paddle that fails the paddle's test keeps
    its [dx]. *)
Lemma in_box_miss_keeps_dx (s : side) :
  spec_in_box (paddle s (update g)) (integrated g) = true ->
  hits s (paddle s (update g)) (integrated g) = false ->
  Ball.dx (ball (update g)) = Ball.dx (ball g).
Proof.
  intros B H. rewrite update_ball_dx, (in_box_not_out s B), collided_dx.
  destruct s; unfold hits in H; cbv zeta.
  - now rewrite H, (in_left_box_misses_right B).
  - now rewrite H, (in_right_box_misses_left B).
Qed.

End Geometry.

(** The border of the closed box is what the closed test accepts and the
    strict test of the code refuses. *)
Lemma on_box_edge_hits (s : side) (p : Paddle.t) (b : Ball.t) :
  on_box_edge p b = spec_in_box p b && negb (hits s p b).
Proof.
  unfold on_box_edge, spec_in_box. destruct s; unfold hits, hits_left, hits_right, gtb;
    rewrite !FloatAxioms.ltb_spec, !FloatAxioms.leb_spec, !FloatAxioms.eqb_spec;
    unfold SFltb, SFleb, SFeqb;
    destruct (SFcompare (Prim2SF (Paddle.x p - Paddle.width p)) (Prim2SF (Ball.x b)))
      as [[]|];
    destruct (SFcompare (Prim2SF (Ball.x b)) (Prim2SF (Paddle.x p + Paddle.width p)))
      as [[]|];
    destruct (SFcompare (Prim2SF (Paddle.y p - Paddle.height p / 2))
                (Prim2SF (Ball.y b))) as [[]|];
    destruct (SFcompare (Prim2SF (Ball.y b))
                (Prim2SF (Paddle.y p + Paddle.height p / 2))) as [[]|];
    reflexivity.
Qed.

(** ** Key events *)

(** Without an own property the read is answered by the prototype. *)
Lemma isPressed_unset (ks : Keys) (k : string) :
  ks !! k = None -> isPressed ks k = inherited k.
Proof. unfold isPressed. now intros ->. Qed.

(** An assignment touches no other own property. *)
Lemma setPressed_lookup_other (ks : Keys) (k k' : string) (b : bool) :
  k <> k' -> setPressed k b ks !! k' = ks !! k'.
Proof.
  intros N. unfold setPressed.
  destruct (ks !! k), (String.eqb k "__proto__");
    reflexivity || now apply lookup_insert_ne.
Qed.

(** An object without an own [__proto__] does not get one. *)
Lemma setPressed_keeps_no_proto (ks : Keys) (k : string) (b : bool) :
  ks !! "__proto__" = None -> setPressed k b ks !! "__proto__" = None.
Proof.
  intros H. destruct (String.eqb_spec k "__proto__") as [->|N].
  - unfold setPressed. now rewrite H.
  - now rewrite setPressed_lookup_other.
Qed.

Lemma setPressed_swallowed (ks : Keys) (b : bool) :
  ks !! "__proto__" = None -> setPressed "__proto__" b ks = ks.
Proof. intros H. unfold setPressed. now rewrite H. Qed.

(** Everywhere else the assignment lands. *)
Lemma setPressed_lookup_written (ks : Keys) (k : string) (b : bool) :
  String.eqb k "__proto__" = false \/ ks !! k <> None ->
  setPressed k b ks !! k = Some b.
Proof.
  intros H. unfold setPressed.
  destruct (ks !! k) eqn:E; [apply lookup_insert_eq|].
  destruct H as [->|H]; [apply lookup_insert_eq|now elim H].
Qed.

Lemma setPressed_lookup_same (ks : Keys) (k : string) (b : bool) :
  String.eqb k "__proto__" = false -> setPressed k b ks !! k = Some b.
Proof. intros E. apply setPressed_lookup_written. now left. Qed.

Lemma setPressed_twice (ks : Keys) (k : string) (b b' : bool) :
  setPressed k b (setPressed k b' ks) = setPressed k b ks.
Proof.
  unfold setPressed at 2 3.
  destruct (ks !! k) eqn:E.
  - unfold setPressed. rewrite lookup_insert_eq. apply insert_insert_eq.
  - destruct (String.eqb k "__proto__") eqn:P.
    + unfold setPressed. now rewrite E, P.
    + unfold setPressed. rewrite lookup_insert_eq. apply insert_insert_eq.
Qed.

Lemma setPressed_delete (ks : Keys) (k : string) (b : bool) :
  delete k (setPressed k b ks) = delete k ks.
Proof.
  unfold setPressed.
  destruct (ks !! k), (String.eqb k "__proto__");
    reflexivity || apply delete_insert_eq.
Qed.

Lemma isPressed_setPressed_other (ks : Keys) (k k' : string) (b : bool) :
  k <> k' -> isPressed (setPressed k b ks) k' = isPressed ks k'.
Proof.
  intros N. unfold isPressed. now rewrite setPressed_lookup_other.
Qed.

Lemma isPressed_setPressed_same (ks : Keys) (k : string) (b : bool) :
  String.eqb k "__proto__" = false -> isPressed (setPressed k b ks) k = b.
Proof.
  intros E. unfold isPressed. now rewrite setPressed_lookup_same.
Qed.

(** A key that reads as not pressed is one an assignment reaches: it has an
    own property or is not an inherited name. *)
Lemma isPressed_false_written (ks : Keys) (k : string) (b : bool) :
  isPressed ks k = false -> isPressed (setPressed k b ks) k = b.
Proof.
  intros H. unfold isPressed. rewrite setPressed_lookup_written; [reflexivity|].
  unfold isPressed in H. destruct (ks !! k) eqn:E; [now right|left].
  destruct (String.eqb_spec k "__proto__") as [->|N]; [discriminate|reflexivity].
Qed.

Lemma handle_keeps_unwritten (g : Game) (e : event) (k : string) :
  writes k e = false -> keys (handle g e) !! k = keys g !! k.
Proof.
  destruct e as [k'|k'|]; simpl; [| |reflexivity];
    intros H%String.eqb_neq; apply setPressed_lookup_other; congruence.
Qed.

Lemma handle_keeps_no_proto (g : Game) (e : event) :
  keys g !! "__proto__" = None -> keys (handle g e) !! "__proto__" = None.
Proof.
  intros H. destruct e as [k'|k'|]; simpl; [| |exact H];
    now apply setPressed_keeps_no_proto.
Qed.

(** The keys [update] reads are not names an object inherits. *)
Lemma control_keys_own (s : side) :
  inherited (up_key s) = false /\ inherited (down_key s) = false.
Proof. destruct s; split; reflexivity. Qed.

Lemma play_keeps_unwritten (evs : list event) : forall (g : Game) (k : string),
  forallb (fun e => negb (writes k e)) evs = true ->
  keys (play evs g) !! k = keys g !! k.
Proof.
  induction evs as [|e evs IH]; intros g k H; [reflexivity|].
  simpl in H. apply andb_prop in H as [He Hevs].
  apply negb_true_iff in He.
  change (play (e :: evs) g) with (play evs (handle g e)).
  rewrite (IH _ _ Hevs). now apply handle_keeps_unwritten.
Qed.

(** The program never gives [keys] an own [__proto__]. *)
Lemma play_keeps_no_proto (evs : list event) : forall g : Game,
  keys g !! "__proto__" = None -> keys (play evs g) !! "__proto__" = None.
Proof.
  induction evs as [|e evs IH]; intros g H; [exact H|].
  change (play (e :: evs) g) with (play evs (handle g e)).
  now apply IH, handle_keeps_no_proto.
Qed.

(** ** What every state of a run satisfies *)

Lemma within_bounds_number (p : Paddle.t) :
  within_bounds p = true -> is_nan (Paddle.y p) = false.
Proof.
  intros [H _]%andb_prop. now destruct (leb_numbers _ _ H).
Qed.

Lemma handle_settled (g : Game) (e : event) :
  paddles_settled g -> paddles_settled (handle g e).
Proof.
  intros I. destruct e as [k|k|]; simpl;
    [intros []; apply (I Left) || apply (I Right)
    |intros []; apply (I Left) || apply (I Right)|].
  intros s. destruct (I s) as [Hin Hord]. split.
  - apply update_within_bounds; [now apply within_bounds_number|exact Hord].
  - unfold bounds_ordered, lower_bound, upper_bound in *.
    now destruct (paddle_update_frame g s) as (_ & _ & ->).
Qed.

Lemma play_settled (evs : list event) : forall g,
  paddles_settled g -> paddles_settled (play evs g).
Proof.
  induction evs as [|e evs IH]; intros g I; [exact I|].
  apply (IH (handle g e)), handle_settled, I.
Qed.

Lemma initial_settled : paddles_settled initial.
Proof. intros []; split; reflexivity. Qed.

(** No event changes where a paddle stands horizontally or how large it is. *)
Lemma handle_frame (g : Game) (e : event) (s : side) :
  Paddle.x (paddle s (handle g e)) = Paddle.x (paddle s g) /\
  Paddle.width (paddle s (handle g e)) = Paddle.width (paddle s g) /\
  Paddle.height (paddle s (handle g e)) = Paddle.height (paddle s g).
Proof.
  destruct e as [k|k|]; [destruct s; repeat split..|apply paddle_update_frame].
Qed.

Lemma play_frame (evs : list event) (s : side) : forall g,
  Paddle.x (paddle s (play evs g)) = Paddle.x (paddle s g) /\
  Paddle.width (paddle s (play evs g)) = Paddle.width (paddle s g) /\
  Paddle.height (paddle s (play evs g)) = Paddle.height (paddle s g).
Proof.
  induction evs as [|e evs IH]; intros g; [repeat split|].
  change (play (e :: evs) g) with (play evs (handle g e)).
  destruct (IH (handle g e)) as (-> & -> & ->). apply handle_frame.
Qed.

(** In every state the program reaches, the paddle boxes lie inside the
    field and apart from each other. *)
Lemma reachable_geometry (evs : list event) :
  box_in_field (paddle Left (play evs initial)) = true /\
  box_in_field (paddle Right (play evs initial)) = true /\
  boxes_apart (play evs initial) = true.
Proof.
  unfold box_in_field, boxes_apart.
  destruct (play_frame evs Left initial) as (-> & -> & _).
  destruct (play_frame evs Right initial) as (-> & -> & _).
  repeat split.
Qed.

(** In every state the program reaches, each paddle's position is a number
    inside the interval of lines 100-101. *)
Lemma reachable_within_bounds (evs : list event) (s : side) :
  within_bounds (paddle s (play evs initial)) = true.
Proof. apply (play_settled evs initial initial_settled s). Qed.

(** * The claims *)

(** C1. After one call of [update], each paddle's position lies in
    [[-1 + height/2, 1 - height/2]] for that paddle's own [height]: in every
    state whose paddle position is a number and whose interval is not empty
    and, with no condition at all, in every state the program reaches.  The
    new position is exactly the min/max of the integrated position [y + dy],
    and [dy] is the velocity derived from the keys: clamping does not
    reverse it. *)
Theorem update_clamps_paddle (s : side) :
  (forall g : Game,
     is_nan (Paddle.y (paddle s g)) = false ->
     bounds_ordered (paddle s g) = true ->
     within_bounds (paddle s (update g)) = true /\
     Paddle.y (paddle s (update g)) =
       Math_max (lower_bound (paddle s g))
         (Math_min (upper_bound (paddle s g))
            (Paddle.y (paddle s g) + Paddle.dy (paddle s (update g)))) /\
     Paddle.dy (paddle s (update g)) =
       (if isPressed (keys g) (up_key s) then 0.02
        else if isPressed (keys g) (down_key s) then -0.02 else 0)) /\
  (forall evs : list event,
     within_bounds (paddle s (update (play evs initial))) = true).
Proof.
  split.
  - intros g Hy Hord. split; [|split].
    + now apply update_within_bounds.
    + apply paddle_update_y.
    + rewrite paddle_update_dy. apply steer_dy.
  - intros evs.
    destruct (play_settled evs initial initial_settled s) as [Hin Hord].
    apply update_within_bounds; [now apply within_bounds_number|exact Hord].
Qed.

Lemma update_clamps_paddle_holding_up :
  is_nan (Paddle.y (paddle Left (keydown "w" initial))) = false /\
  bounds_ordered (paddle Left (keydown "w" initial)) = true /\
  within_bounds (paddle Left (update (keydown "w" initial))) = true /\
  Paddle.dy (paddle Left (update (keydown "w" initial))) = 0.02.
Proof.
  split; [reflexivity|]. split; [reflexivity|].
  destruct (proj1 (update_clamps_paddle Left) (keydown "w" initial)
              eq_refl eq_refl) as (Hin & _ & Hdy).
  split; [exact Hin|exact Hdy].
Defined.

(** C2. Whenever, after the position integration of a tick, the ball's [y]
    exceeds [1 - size] or is below [-1 + size], that tick leaves [dy] negated.
    In particular a ball that starts the tick above [1 - size] with [dy > 0]
    is still above it after the integration, so its [dy] is negated: one
    sign flip, from positive to negative. *)
Theorem wall_hit_negates_dy (g : Game) :
  (hits_wall (integrated g) = true ->
   Ball.dy (ball (update g)) = - Ball.dy (ball g)) /\
  ((1 - Ball.size (ball g) <? Ball.y (ball g)) = true ->
   (0 <? Ball.dy (ball g)) = true ->
   Ball.dy (ball (update g)) = - Ball.dy (ball g) /\
   (Ball.dy (ball (update g)) <? 0) = true).
Proof.
  split.
  - intros H. now rewrite update_ball_dy, H.
  - intros Hy Hdy.
    rewrite update_ball_dy, (above_top_hits_wall g Hy Hdy).
    split; [reflexivity|now apply opp_negative].
Qed.

Lemma wall_hit_negates_dy_near_top :
  hits_wall (integrated near_top) = true /\
  (1 - Ball.size (ball near_top) <? Ball.y (ball near_top)) = true /\
  (0 <? Ball.dy (ball near_top)) = true /\
  Ball.dy (ball near_top) = 0.01 /\
  Ball.dy (ball (update near_top)) = -0.01.
Proof.
  do 4 (split; [reflexivity|]).
  exact (proj1 (proj2 (wall_hit_negates_dy near_top) eq_refl eq_refl)).
Defined.

(** Away from the walls [dy] is kept: the flip happens in the ticks whose
    integrated position is beyond a threshold, and only in those. *)
Lemma wall_miss_keeps_dy (g : Game) :
  hits_wall (integrated g) = false ->
  Ball.dy (ball (update g)) = Ball.dy (ball g).
Proof. intros H. now rewrite update_ball_dy, H. Qed.

(** C3, as the specification words it, fails on the edge of the box: with the
    ball integrated to [y = 0.1], the upper edge of the left paddle's box,
    and [x] inside it, the closed-interval test holds and [dx] is kept. *)
Lemma closed_box_edge_keeps_dx :
  spec_in_box (paddle Left (update on_left_edge)) (integrated on_left_edge) = true /\
  Ball.dx (ball (update on_left_edge)) = Ball.dx (ball on_left_edge) /\
  (Ball.dx (ball (update on_left_edge)) =? - Ball.dx (ball on_left_edge)) = false.
Proof. repeat split. Qed.

(** C3, amended. A ball that the integration puts strictly inside a paddle's
    box (the test of lines 113-116 or 120-123, on the paddle as this tick
    moved it) has its [dx] negated by that tick, and its position is the
    integrated one: nothing pushes it out of the box.  A ball that the
    integration puts on the border of the box, that is in the closed box the
    specification describes but failing the strict test, keeps its [dx], and
    its position is the integrated one as well.  Both hold whenever the two
    paddle boxes are inside the field and apart from each other, hence in
    every state the program reaches. *)
Theorem paddle_hit_negates_dx (s : side) :
  (forall g : Game,
     box_in_field (paddle Left g) = true ->
     box_in_field (paddle Right g) = true ->
     boxes_apart g = true ->
     hits s (paddle s (update g)) (integrated g) = true ->
     Ball.dx (ball (update g)) = - Ball.dx (ball g) /\
     Ball.x (ball (update g)) = Ball.x (ball g) + Ball.dx (ball g) /\
     Ball.y (ball (update g)) = Ball.y (ball g) + Ball.dy (ball g)) /\
  (forall (evs : list event) (g : Game),
     g = play evs initial ->
     hits s (paddle s (update g)) (integrated g) = true ->
     Ball.dx (ball (update g)) = - Ball.dx (ball g) /\
     Ball.x (ball (update g)) = Ball.x (ball g) + Ball.dx (ball g) /\
     Ball.y (ball (update g)) = Ball.y (ball g) + Ball.dy (ball g)) /\
  (forall (p : Paddle.t) (b : Ball.t),
     on_box_edge p b = spec_in_box p b && negb (hits s p b)) /\
  (forall g : Game,
     box_in_field (paddle Left g) = true ->
     box_in_field (paddle Right g) = true ->
     boxes_apart g = true ->
     spec_in_box (paddle s (update g)) (integrated g) = true ->
     hits s (paddle s (update g)) (integrated g) = false ->
     Ball.dx (ball (update g)) = Ball.dx (ball g) /\
     Ball.x (ball (update g)) = Ball.x (ball g) + Ball.dx (ball g) /\
     Ball.y (ball (update g)) = Ball.y (ball g) + Ball.dy (ball g)) /\
  (forall (evs : list event) (g : Game),
     g = play evs initial ->
     on_box_edge (paddle s (update g)) (integrated g) = true ->
     hits s (paddle s (update g)) (integrated g) = false /\
     Ball.dx (ball (update g)) = Ball.dx (ball g) /\
     Ball.x (ball (update g)) = Ball.x (ball g) + Ball.dx (ball g) /\
     Ball.y (ball (update g)) = Ball.y (ball g) + Ball.dy (ball g)).
Proof.
  assert (forall g : Game,
            box_in_field (paddle Left g) = true ->
            box_in_field (paddle Right g) = true ->
            boxes_apart g = true ->
            hits s (paddle s (update g)) (integrated g) = true ->
            Ball.dx (ball (update g)) = - Ball.dx (ball g) /\
            Ball.x (ball (update g)) = Ball.x (ball g) + Ball.dx (ball g) /\
            Ball.y (ball (update g)) = Ball.y (ball g) + Ball.dy (ball g))
    as General.
  { intros g Hl Hr Hap H. split.
    - exact (hit_negates_dx g Hl Hr Hap s H).
    - apply update_ball_position. exact (hit_not_out g Hl Hr s H). }
  assert (forall g : Game,
            box_in_field (paddle Left g) = true ->
            box_in_field (paddle Right g) = true ->
            boxes_apart g = true ->
            spec_in_box (paddle s (update g)) (integrated g) = true ->
            hits s (paddle s (update g)) (integrated g) = false ->
            Ball.dx (ball (update g)) = Ball.dx (ball g) /\
            Ball.x (ball (update g)) = Ball.x (ball g) + Ball.dx (ball g) /\
            Ball.y (ball (update g)) = Ball.y (ball g) + Ball.dy (ball g))
    as Edge.
  { intros g Hl Hr Hap B H. split.
    - exact (in_box_miss_keeps_dx g Hl Hr Hap s B H).
    - apply update_ball_position. exact (in_box_not_out g Hl Hr s B). }
  split; [exact General|].
  split.
  { intros evs g -> H. destruct (reachable_geometry evs) as (Hl & Hr & Hap).
    now apply General. }
  split; [apply on_box_edge_hits|].
  split; [exact Edge|].
  intros evs g -> H. destruct (reachable_geometry evs) as (Hl & Hr & Hap).
  rewrite (on_box_edge_hits s) in H. apply andb_prop in H as [B H].
  apply negb_true_iff in H. split; [exact H|]. now apply Edge.
Qed.

Lemma paddle_hit_negates_dx_at_left :
  box_in_field (paddle Left at_left_paddle) = true /\
  box_in_field (paddle Right at_left_paddle) = true /\
  boxes_apart at_left_paddle = true /\
  hits Left (paddle Left (update at_left_paddle)) (integrated at_left_paddle) = true /\
  Ball.dx (ball (update at_left_paddle)) = -0.01.
Proof.
  do 4 (split; [reflexivity|]).
  exact (proj1 (proj1 (paddle_hit_negates_dx Left) at_left_paddle
                  eq_refl eq_refl eq_refl eq_refl)).
Defined.

(** C4. Whenever the integration puts the ball's [x] above 1 or below -1,
    the tick ends with the ball at the origin and with the [dx] it had at
    that point negated, on either side alike.  With the paddle boxes inside
    the field no paddle test can hold there, so in every state the program
    reaches this is the opposite of the [dx] the tick started with. *)
Theorem out_of_field_recentres :
  (forall g : Game,
     is_out (integrated g) = true ->
     Ball.x (ball (update g)) = 0 /\
     Ball.y (ball (update g)) = 0 /\
     Ball.dx (ball (update g)) = - Ball.dx (collided g) /\
     (box_in_field (paddle Left g) = true ->
      box_in_field (paddle Right g) = true ->
      Ball.dx (ball (update g)) = - Ball.dx (ball g))) /\
  (forall (evs : list event) (g : Game),
     g = play evs initial ->
     is_out (integrated g) = true ->
     Ball.x (ball (update g)) = 0 /\
     Ball.y (ball (update g)) = 0 /\
     Ball.dx (ball (update g)) = - Ball.dx (ball g)).
Proof.
  assert (forall g : Game,
            is_out (integrated g) = true ->
            Ball.x (ball (update g)) = 0 /\
            Ball.y (ball (update g)) = 0 /\
            Ball.dx (ball (update g)) = - Ball.dx (collided g) /\
            (box_in_field (paddle Left g) = true ->
             box_in_field (paddle Right g) = true ->
             Ball.dx (ball (update g)) = - Ball.dx (ball g))) as General.
  { intros g H.
    assert (ball (update g) =
            Ball.set_dx (- Ball.dx (collided g))
              (Ball.set_y 0 (Ball.set_x 0 (collided g)))) as E.
    { rewrite ball_update. unfold recentre. now rewrite update_is_out, H. }
    rewrite E. repeat split. intros Hl Hr.
    change (- Ball.dx (collided g) = - Ball.dx (ball g)).
    pose proof (out_hits_nothing g Hl Hr Left H) as Nl.
    pose proof (out_hits_nothing g Hl Hr Right H) as Nr.
    unfold hits in Nl, Nr. rewrite collided_dx. cbv zeta. now rewrite Nl, Nr. }
  split; [exact General|].
  intros evs g -> H. destruct (reachable_geometry evs) as (Hl & Hr & _).
  destruct (General _ H) as (Hx & Hy & _ & Hdx). auto.
Qed.

Lemma out_of_field_recentres_past_right :
  is_out (integrated past_right) = true /\
  Ball.x (ball past_right) = 1.0001 /\
  Ball.dx (ball past_right) = 0.01 /\
  Ball.x (ball (update past_right)) = 0 /\
  Ball.y (ball (update past_right)) = 0 /\
  Ball.dx (ball (update past_right)) = -0.01.
Proof.
  do 3 (split; [reflexivity|]).
  destruct (proj1 out_of_field_recentres past_right eq_refl)
    as (Hx & Hy & _ & Hdx).
  split; [exact Hx|]. split; [exact Hy|]. exact (Hdx eq_refl eq_refl).
Defined.

(** C5. The clamp does not keep the drawn paddle inside the field.  With
    ['w'] held for 45 frames the left paddle sits at the upper bound of its
    interval, and the rectangle [render] draws for it, whose vertical
    half-extent is [height], has its top edge above 1. *)
Theorem held_paddle_drawn_past_top :
  within_bounds (paddle Left held_up) = true /\
  (Paddle.y (paddle Left held_up) + Paddle.height (paddle Left held_up) >? 1)
  = true /\
  inside_field (paddle_vertices (paddle Left held_up)) = false.
Proof. vm_compute. repeat split. Qed.

(** C6, as stated, fails: after 50 ticks from the initial state neither
    coordinate of the ball compares equal to 0.5. *)
Lemma fifty_ticks_not_half :
  (Ball.x (ball (run 50 initial)) =? 0.5) = false /\
  (Ball.y (ball (run 50 initial)) =? 0.5) = false.
Proof. vm_compute. split; reflexivity. Qed.

(** C6, amended. Fifty ticks from the initial state, with no key held, take
    no branch of lines 108-132 and leave the velocity at (0.01, 0.01); the
    ball ends at x = y = 0.5 + 2^-52, the closed form 0.5 plus the rounding
    error the fifty binary64 additions accumulate. *)
Theorem fifty_ticks_drift :
  all_quiet 50 initial = true /\
  ball (run 50 initial) =
    {| Ball.x := 0x1.0000000000002p-1; Ball.y := 0x1.0000000000002p-1;
       Ball.dx := 0.01; Ball.dy := 0.01; Ball.size := 0.02 |} /\
  Ball.x (ball (run 50 initial)) - 0.5 = 0x1p-52 /\
  Ball.y (ball (run 50 initial)) - 0.5 = 0x1p-52.
Proof. vm_compute. repeat split. Qed.

(** C7, as stated, fails for one key: the write [keys['__proto__'] = false]
    overwrites nothing.  The inherited setter swallows it, the object is as
    before, and the key still reads as pressed. *)
Lemma proto_write_is_swallowed :
  isPressed (keys (keyup "__proto__" initial)) "__proto__" = true /\
  keys (keyup "__proto__" initial) = keys initial.
Proof. split; reflexivity. Qed.

(** C7, amended. For every key, writing it twice with the same value is the
    same as writing it once, for both listeners, a second write replaces the
    first, and a write changes neither another key's entry, nor what another
    key reads as, nor the paddles or the ball.  For every key other than
    [__proto__] the write is what a later read returns: pressed after the
    key-down listener, not pressed after the key-up listener, whatever was
    recorded before.  The [keys] object of the program never has an own
    [__proto__], and a write to [__proto__] leaves such an object as it
    was, reading as pressed. *)
Theorem key_write_idempotent (k : string) (b b' : bool) (g : Game) :
  setPressed k true (setPressed k true (keys g)) = setPressed k true (keys g) /\
  keydown k (keydown k g) = keydown k g /\
  keyup k (keyup k g) = keyup k g /\
  setPressed k b (setPressed k b' (keys g)) = setPressed k b (keys g) /\
  delete k (setPressed k b (keys g)) = delete k (keys g) /\
  paddles (keydown k g) = paddles g /\ ball (keydown k g) = ball g /\
  paddles (keyup k g) = paddles g /\ ball (keyup k g) = ball g /\
  (String.eqb k "__proto__" = false ->
   isPressed (setPressed k b (keys g)) k = b /\
   isPressed (keys (keydown k g)) k = true /\
   isPressed (keys (keyup k g)) k = false /\
   isPressed (keys (keyup k (keydown k g))) k = false /\
   isPressed (keys (keydown k (keyup k g))) k = true) /\
  (forall k' : string,
     k <> k' ->
     isPressed (keys (keydown k g)) k' = isPressed (keys g) k' /\
     isPressed (keys (keyup k g)) k' = isPressed (keys g) k') /\
  (keys g !! "__proto__" = None ->
   keys (keydown "__proto__" g) = keys g /\
   keys (keyup "__proto__" g) = keys g /\
   isPressed (keys (keyup "__proto__" g)) "__proto__" = true) /\
  (forall evs : list event, keys (play evs initial) !! "__proto__" = None).
Proof.
  split; [apply setPressed_twice|].
  split; [unfold keydown; simpl; now rewrite setPressed_twice|].
  split; [unfold keyup; simpl; now rewrite setPressed_twice|].
  split; [apply setPressed_twice|].
  split; [apply setPressed_delete|].
  do 4 (split; [reflexivity|]).
  split.
  { intros E. repeat split; simpl; now apply isPressed_setPressed_same. }
  split.
  { intros k' N. split; simpl; now apply isPressed_setPressed_other. }
  split.
  { intros H. simpl. rewrite !setPressed_swallowed by exact H.
    repeat split. unfold isPressed. now rewrite H. }
  intros evs. now apply play_keeps_no_proto.
Qed.

Lemma key_write_idempotent_w :
  String.eqb "w" "__proto__" = false /\
  isPressed (keys (keydown "w" initial)) "w" = true /\
  isPressed (keys (keyup "w" (keydown "w" initial))) "w" = false.
Proof.
  split; [reflexivity|].
  destruct (key_write_idempotent "w" true true initial)
    as (_ & _ & _ & _ & _ & _ & _ & _ & _ & H & _).
  destruct (H eq_refl) as (_ & Hdown & _ & Hup & _).
  split; [exact Hdown|exact Hup].
Defined.

(** C8, as stated, fails: [toString] was never written, by any event, and
    reads as pressed, because the [keys] object inherits a function of that
    name. *)
Lemma inherited_key_reads_pressed :
  forallb (fun e => negb (writes "toString" e)) [KeyDown "w"; Frame] = true /\
  isPressed (keys initial) "toString" = true /\
  isPressed (keys (play [KeyDown "w"; Frame] initial)) "toString" = true.
Proof. repeat split. Qed.

(** What [update] makes of an unwritten key: a paddle whose two keys were
    never written gets velocity 0. *)
Lemma unwritten_keys_leave_paddle_still (evs : list event) (s : side) :
  forallb (fun e => negb (writes (up_key s) e)) evs = true ->
  forallb (fun e => negb (writes (down_key s) e)) evs = true ->
  Paddle.dy (paddle s (update (play evs initial))) = 0.
Proof.
  intros Hu Hd. rewrite paddle_update_dy, steer_dy.
  destruct (control_keys_own s) as [Iu Id].
  rewrite !isPressed_unset, Iu, Id; [reflexivity| |];
    rewrite play_keeps_unwritten by assumption; apply lookup_empty.
Qed.

(** C8, amended. A key that no event has written since the page loaded reads
    as pressed exactly when it names a property the [keys] object inherits
    from [Object.prototype]; every other unwritten key reads as not pressed,
    however many events and frames went by.  The four keys [update] reads
    are not inherited names, so a paddle whose keys were never written is
    given velocity 0. *)
Theorem unwritten_key_reads_inherited :
  (forall (evs : list event) (k : string),
     forallb (fun e => negb (writes k e)) evs = true ->
     isPressed (keys (play evs initial)) k = inherited k) /\
  (forall s : side,
     inherited (up_key s) = false /\ inherited (down_key s) = false) /\
  (forall (evs : list event) (s : side),
     forallb (fun e => negb (writes (up_key s) e)) evs = true ->
     forallb (fun e => negb (writes (down_key s) e)) evs = true ->
     isPressed (keys (play evs initial)) (up_key s) = false /\
     isPressed (keys (play evs initial)) (down_key s) = false /\
     Paddle.dy (paddle s (update (play evs initial))) = 0).
Proof.
  assert (forall (evs : list event) (k : string),
            forallb (fun e => negb (writes k e)) evs = true ->
            isPressed (keys (play evs initial)) k = inherited k) as Read.
  { intros evs k H. apply isPressed_unset.
    rewrite (play_keeps_unwritten evs initial k H). apply lookup_empty. }
  split; [exact Read|]. split; [exact control_keys_own|].
  intros evs s Hu Hd. destruct (control_keys_own s) as [Iu Id].
  rewrite (Read _ _ Hu), (Read _ _ Hd).
  repeat split; try assumption.
  now apply unwritten_keys_leave_paddle_still.
Qed.

Lemma unwritten_key_reads_inherited_w :
  forallb (fun e => negb (writes "w" e)) [KeyDown "s"; Frame; KeyUp "s"] = true /\
  inherited "w" = false /\
  isPressed (keys (play [KeyDown "s"; Frame; KeyUp "s"] initial)) "w" = false.
Proof.
  split; [reflexivity|]. split; [reflexivity|].
  exact (proj1 unwritten_key_reads_inherited
           [KeyDown "s"; Frame; KeyUp "s"] "w" eq_refl).
Defined.

(** C9. [update] writes only the paddles' [y] and [dy] and the ball's [x],
    [y], [dx] and [dy]: each paddle's [x], [width] and [height], the ball's
    [size] and the whole [keys] object are as before. *)
Theorem update_frame (g : Game) (s : side) :
  Paddle.x (paddle s (update g)) = Paddle.x (paddle s g) /\
  Paddle.width (paddle s (update g)) = Paddle.width (paddle s g) /\
  Paddle.height (paddle s (update g)) = Paddle.height (paddle s g) /\
  Ball.size (ball (update g)) = Ball.size (ball g) /\
  keys (update g) = keys g.
Proof.
  destruct (paddle_update_frame g s) as (Hx & Hw & Hh).
  repeat (split; [assumption|]). split; [|reflexivity].
  rewrite ball_update. destruct (recentre_dy (collided g)) as [_ ->].
  apply collided_position.
Qed.

(** C10. When the test of line 128 holds, the tick puts the ball at the
    origin with [dx] negated and leaves [dy] and [size] as lines 104-125
    left them: [dy] is the tick's starting [dy], negated if the wall test
    held in this tick, whatever the initial 0.01 was. *)
Theorem recentre_keeps_dy (g : Game) :
  is_out (integrated g) = true ->
  ball (update g) =
    {| Ball.x := 0; Ball.y := 0; Ball.dx := - Ball.dx (collided g);
       Ball.dy := Ball.dy (collided g); Ball.size := Ball.size (collided g) |} /\
  Ball.dy (ball (update g)) =
    (if hits_wall (integrated g) then - Ball.dy (ball g) else Ball.dy (ball g)).
Proof.
  intros H. split; [|apply update_ball_dy].
  rewrite ball_update. unfold recentre. now rewrite update_is_out, H.
Qed.

Lemma recentre_keeps_dy_second_serve :
  is_out (integrated (run 99 initial)) = true /\
  Ball.dy (ball initial) = 0.01 /\
  Ball.x (ball (update (run 99 initial))) = 0 /\
  Ball.dy (ball (update (run 99 initial))) = -0.01.
Proof.
  split; [vm_compute; reflexivity|]. split; [reflexivity|].
  split; [vm_compute; reflexivity|].
  assert (is_out (integrated (run 99 initial)) = true) as H
    by (vm_compute; reflexivity).
  rewrite (proj2 (recentre_keeps_dy (run 99 initial) H)).
  vm_compute. reflexivity.
Defined.

(** * Further properties of the game *)

(** ** More binary64 facts *)

Section FloatEquality.

Implicit Types a b c : float.

Lemma eqb_compare a b :
  (a =? b) = true <-> SFcompare (Prim2SF a) (Prim2SF b) = Some Eq.
Proof.
  rewrite FloatAxioms.eqb_spec. unfold SFeqb.
  destruct (SFcompare (Prim2SF a) (Prim2SF b)) as [[]|]; split; congruence.
Qed.

Lemma eqb_same a : is_nan a = false -> (a =? a) = true.
Proof. rewrite is_nan_compare, eqb_compare. auto. Qed.

Lemma eqb_swap a b : (a =? b) = true -> (b =? a) = true.
Proof.
  rewrite !eqb_compare, (SFcompare_swap (Prim2SF a) (Prim2SF b)).
  now intros ->.
Qed.

Lemma eqb_chain a b c : (a =? b) = true -> (b =? c) = true -> (a =? c) = true.
Proof. rewrite !eqb_compare. apply SFcompare_Eq_l. Qed.

Lemma eqb_leb a b : (a =? b) = true -> (a <=? b) = true.
Proof. rewrite eqb_compare, leb_compare. auto. Qed.

(** Two numbers neither of which is below the other are equal. *)
Lemma eqb_total a b :
  is_nan a = false -> is_nan b = false ->
  (a <? b) = false -> (b <? a) = false -> (a =? b) = true.
Proof.
  intros Ha Hb Hab Hba.
  pose proof (leb_total a b Ha Hb Hab) as H1.
  pose proof (leb_total b a Hb Ha Hba) as H2.
  apply leb_compare in H1, H2. apply eqb_compare.
  rewrite (SFcompare_swap (Prim2SF a) (Prim2SF b)) in H1.
  destruct (SFcompare (Prim2SF a) (Prim2SF b)) as [[]|]; simpl in *;
    destruct H1, H2; congruence.
Qed.

Lemma leb_eqb_l a b c : (a =? b) = true -> (b <=? c) = true -> (a <=? c) = true.
Proof. intros H. apply leb_chain. now apply eqb_leb. Qed.

Lemma leb_eqb_r a b c : (a <=? b) = true -> (b =? c) = true -> (a <=? c) = true.
Proof. intros H H'. eapply leb_chain; [exact H|now apply eqb_leb]. Qed.

(** Adding zero gives the same number, up to the sign of a zero. *)
Lemma add_zero a : is_nan a = false -> (a + 0 =? a) = true.
Proof.
  rewrite is_nan_spec, eqb_compare, add_spec.
  change (Prim2SF 0) with (S754_zero false). intros H.
  pose proof (SFcompare_refl (Prim2SF a)) as R.
  destruct (Prim2SF a) as [s|s| |s m e]; simpl in *; try congruence.
  - now destruct s.
  - now destruct s.
  - f_equal. exact (R _ eq_refl).
Qed.

Lemma opp_opp a : - - a = a.
Proof.
  apply Prim2SF_inj. rewrite !opp_spec.
  destruct (Prim2SF a) as [s|s| |s m e]; simpl; now rewrite ?negb_involutive.
Qed.

End FloatEquality.

(** Addition and negation: the opposite of a sum is the sum of the opposites,
    up to the sign of a zero, so adding a negative number never gives more. *)
Section OppositeSum.

Lemma binary_round_opp (s : bool) (m : positive) (e : Z) :
  binary_round prec emax (negb s) m e = SFopp (binary_round prec emax s m e).
Proof.
  unfold binary_round. destruct (shl_align _ _ _) as [mz ez].
  unfold binary_round_aux. destruct (shr_fexp _ _ _ _ _) as [r e1].
  destruct (shr_fexp _ _ _ _ _) as [r2 e2].
  destruct (shr_m r2); simpl; try reflexivity.
  destruct (_ <=? _)%Z; reflexivity.
Qed.

Lemma SFcompare_zero_sign (a : spec_float) (s s' : bool) :
  SFcompare a (S754_zero s) = SFcompare a (S754_zero s').
Proof. destruct a; reflexivity. Qed.

Lemma SFcompare_opp (a b : spec_float) :
  SFcompare (SFopp a) (SFopp b) = SFcompare b a.
Proof.
  destruct a as [sa|sa| |sa ma ea], b as [sb|sb| |sb mb eb]; simpl;
    try reflexivity; try (destruct sa; reflexivity);
    try (destruct sb; reflexivity); try (destruct sa, sb; reflexivity).
  destruct sa, sb; simpl; try reflexivity; order_cases.
Qed.

Lemma SF64add_opp (x y z : spec_float) :
  SFcompare z (SF64add (SFopp x) (SFopp y)) =
  SFcompare z (SFopp (SF64add x y)).
Proof.
  destruct x as [sx|sx| |sx mx ex], y as [sy|sy| |sy my ey];
    try reflexivity;
    try (destruct sx, sy; simpl; (reflexivity || apply SFcompare_zero_sign)).
  cbn [SFopp]. unfold SF64add, SFadd.
  set (ez := Z.min ex ey).
  set (X := Zpos (fst (shl_align mx ex ez))).
  set (Y := Zpos (fst (shl_align my ey ez))).
  replace (cond_Zopp (negb sx) X + cond_Zopp (negb sy) Y)%Z
    with (- (cond_Zopp sx X + cond_Zopp sy Y))%Z
    by (destruct sx, sy; unfold cond_Zopp; simpl negb; cbv iota; lia).
  destruct (cond_Zopp sx X + cond_Zopp sy Y)%Z as [|p|p];
    unfold binary_normalize; simpl Z.opp.
  - apply SFcompare_zero_sign.
  - now rewrite <- binary_round_opp.
  - now rewrite <- binary_round_opp.
Qed.

Lemma valid_binary_opp (x : spec_float) :
  valid_binary (SFopp x) = valid_binary x.
Proof. destruct x; reflexivity. Qed.

Lemma SF64add_negative_le (y d : spec_float) :
  valid_binary y = true -> valid_binary d = true ->
  SFcompare d (S754_zero false) = Some Lt ->
  y <> S754_nan -> y <> S754_infinity false ->
  le_result (SFcompare (SF64add y d) y).
Proof.
  intros Vy Vd Hd Hnan Hinf.
  rewrite <- SFcompare_opp, <- SF64add_opp.
  apply SF64add_positive_ge.
  - now rewrite valid_binary_opp.
  - now rewrite valid_binary_opp.
  - change (S754_zero false) with (SFopp (S754_zero true)).
    rewrite SFcompare_opp, (SFcompare_zero_sign d true false). exact Hd.
  - destruct y; simpl; congruence.
  - destruct y as [s|[]| |]; simpl; congruence.
Qed.

End OppositeSum.

Lemma add_negative_le (y d : float) :
  (d <? 0) = true -> is_nan y = false -> Prim2SF y <> S754_infinity false ->
  (y + d <=? y) = true.
Proof.
  rewrite ltb_compare, is_nan_spec, leb_compare, add_spec.
  change (Prim2SF 0) with (S754_zero false). intros Hd Hy Hinf.
  apply SF64add_negative_le; auto using Prim2SF_valid.
Qed.

Lemma ltb_add_negative (c y d : float) :
  (y <? c) = true -> (d <? 0) = true -> (y + d <? c) = true.
Proof.
  intros Hc Hd. eapply leb_ltb_trans; [|exact Hc].
  apply add_negative_le; [exact Hd|now destruct (ltb_numbers _ _ Hc)|].
  intros E. apply ltb_compare in Hc. rewrite E in Hc.
  destruct (Prim2SF c) as [s|s| |s m e]; simpl in Hc;
    try destruct s; discriminate.
Qed.

(** With a finite increment the two facts hold from any number, infinite
    ones included. *)
Lemma add_finite_positive_ge (y d : float) :
  (0 <? d) = true -> finite_number d = true -> is_nan y = false ->
  (y <=? y + d) = true.
Proof.
  intros Hd Hf Hy.
  destruct (Prim2SF y) as [s|[]| |s m e] eqn:E;
    try (apply add_positive_ge; [exact Hd|exact Hy|rewrite E; discriminate]).
  apply leb_compare. rewrite add_spec, E. unfold finite_number in Hf.
  destruct (Prim2SF d); try discriminate; now right.
Qed.

Lemma add_finite_negative_le (y d : float) :
  (d <? 0) = true -> finite_number d = true -> is_nan y = false ->
  (y + d <=? y) = true.
Proof.
  intros Hd Hf Hy.
  destruct (Prim2SF y) as [s|[]| |s m e] eqn:E;
    try (apply add_negative_le; [exact Hd|exact Hy|rewrite E; discriminate]).
  apply leb_compare. rewrite add_spec, E. unfold finite_number in Hf.
  destruct (Prim2SF d); try discriminate; now right.
Qed.

(** ** The ball along a run *)

Lemma update_ball_x (g : Game) :
  Ball.x (ball (update g)) =
  if is_out (integrated g) then 0 else Ball.x (ball g) + Ball.dx (ball g).
Proof.
  rewrite ball_update. unfold recentre. rewrite update_is_out.
  destruct (is_out (integrated g)); [reflexivity|].
  now destruct (collided_position g) as (-> & _).
Qed.

Lemma update_ball_y (g : Game) :
  Ball.y (ball (update g)) =
  if is_out (integrated g) then 0 else Ball.y (ball g) + Ball.dy (ball g).
Proof.
  rewrite ball_update. unfold recentre. rewrite update_is_out.
  destruct (is_out (integrated g)); [reflexivity|].
  now destruct (collided_position g) as (_ & -> & _).
Qed.

Lemma update_keeps_ball_in_field (g : Game) :
  is_nan (Ball.x (ball g)) = false ->
  finite_number (Ball.dx (ball g)) = true ->
  ball_in_field (ball (update g)) = true.
Proof.
  intros Hx Hdx. unfold ball_in_field. rewrite update_ball_x.
  destruct (is_out (integrated g)) eqn:E; [reflexivity|].
  unfold is_out, integrated, move, gtb in E. simpl in E.
  apply orb_false_elim in E as [Hhi Hlo].
  pose proof (add_number _ _ Hx Hdx) as Hn.
  apply andb_true_intro. split; now apply leb_total.
Qed.

Lemma update_velocity_kept_or_negated (g : Game) :
  (Ball.dx (ball (update g)) = Ball.dx (ball g) \/
   Ball.dx (ball (update g)) = - Ball.dx (ball g)) /\
  (Ball.dy (ball (update g)) = Ball.dy (ball g) \/
   Ball.dy (ball (update g)) = - Ball.dy (ball g)).
Proof.
  split.
  - rewrite update_ball_dx, collided_dx. cbv zeta.
    destruct (is_out _), (hits_left _ _), (hits_right _ _);
      rewrite ?opp_opp; auto.
  - rewrite update_ball_dy. destruct (hits_wall _); auto.
Qed.

Lemma handle_ball_settled (g : Game) (e : event) :
  ball_settled g -> ball_settled (handle g e).
Proof.
  destruct e as [k|k|]; [exact (fun H => H)..|].
  intros (Hdx & Hdy & Hin & Hy). simpl.
  destruct (update_velocity_kept_or_negated g) as [Vx Vy].
  assert (is_nan (Ball.x (ball g)) = false) as Hx.
  { apply andb_prop in Hin as [H _]. now destruct (leb_numbers _ _ H). }
  repeat split.
  - destruct Hdx as [E|E], Vx as [-> | ->]; rewrite E; auto.
  - destruct Hdy as [E|E], Vy as [-> | ->]; rewrite E; auto.
  - apply update_keeps_ball_in_field; [exact Hx|].
    destruct Hdx as [-> | ->]; reflexivity.
  - rewrite update_ball_y. destruct (is_out _); [reflexivity|].
    apply add_number; [exact Hy|]. destruct Hdy as [-> | ->]; reflexivity.
Qed.

Lemma play_ball_settled (evs : list event) : forall g,
  ball_settled g -> ball_settled (play evs g).
Proof.
  induction evs as [|e evs IH]; intros g I; [exact I|].
  apply (IH (handle g e)), handle_ball_settled, I.
Qed.

Lemma initial_ball_settled : ball_settled initial.
Proof. repeat split; auto. Qed.

(** X1. No tick changes the speed of the ball: it keeps or negates each
    velocity component, so at every moment of every game both are 0.01 in
    absolute value. *)
Theorem ball_speed_constant :
  (forall g : Game,
     (Ball.dx (ball (update g)) = Ball.dx (ball g) \/
      Ball.dx (ball (update g)) = - Ball.dx (ball g)) /\
     (Ball.dy (ball (update g)) = Ball.dy (ball g) \/
      Ball.dy (ball (update g)) = - Ball.dy (ball g))) /\
  (forall evs : list event,
     (Ball.dx (ball (play evs initial)) = 0.01 \/
      Ball.dx (ball (play evs initial)) = -0.01) /\
     (Ball.dy (ball (play evs initial)) = 0.01 \/
      Ball.dy (ball (play evs initial)) = -0.01)).
Proof.
  split; [exact update_velocity_kept_or_negated|].
  intros evs.
  destruct (play_ball_settled evs initial initial_ball_settled)
    as (Hdx & Hdy & _). split; assumption.
Qed.

(** X2. A tick never leaves the ball outside the field left to right: after
    [update] its [x] is in [[-1, 1]] whenever the old [x] was a number and
    [dx] finite, hence at every moment of every game. *)
Theorem ball_stays_in_field :
  (forall g : Game,
     is_nan (Ball.x (ball g)) = false ->
     finite_number (Ball.dx (ball g)) = true ->
     (-1 <=? Ball.x (ball (update g))) = true /\
     (Ball.x (ball (update g)) <=? 1) = true) /\
  (forall evs : list event,
     (-1 <=? Ball.x (ball (play evs initial))) = true /\
     (Ball.x (ball (play evs initial)) <=? 1) = true).
Proof.
  split.
  - intros g Hx Hdx. apply andb_prop.
    exact (update_keeps_ball_in_field g Hx Hdx).
  - intros evs.
    destruct (play_ball_settled evs initial initial_ball_settled)
      as (_ & _ & Hin & _).
    apply andb_prop. exact Hin.
Qed.

Lemma ball_stays_in_field_past_right :
  is_nan (Ball.x (ball past_right)) = false /\
  finite_number (Ball.dx (ball past_right)) = true /\
  (-1 <=? Ball.x (ball (update past_right))) = true /\
  (Ball.x (ball (update past_right)) <=? 1) = true.
Proof.
  do 2 (split; [reflexivity|]).
  exact (proj1 ball_stays_in_field past_right eq_refl eq_refl).
Defined.

(** X3. A ball that starts a tick below [-1 + size] with [dy < 0] is still
    below it after the integration, so the tick negates its [dy], from
    negative to positive. *)
Theorem below_bottom_negates_dy (g : Game) :
  (Ball.y (ball g) <? -1 + Ball.size (ball g)) = true ->
  (Ball.dy (ball g) <? 0) = true ->
  hits_wall (integrated g) = true /\
  Ball.dy (ball (update g)) = - Ball.dy (ball g) /\
  (0 <? Ball.dy (ball (update g))) = true.
Proof.
  intros Hy Hdy.
  assert (hits_wall (integrated g) = true) as H.
  { unfold hits_wall, integrated, move. simpl.
    rewrite (ltb_add_negative _ _ _ Hy Hdy). apply orb_true_r. }
  split; [exact H|]. rewrite update_ball_dy, H.
  split; [reflexivity|now apply opp_positive].
Qed.

Lemma below_bottom_negates_dy_near_bottom :
  (Ball.y (ball near_bottom) <? -1 + Ball.size (ball near_bottom)) = true /\
  (Ball.dy (ball near_bottom) <? 0) = true /\
  Ball.dy (ball (update near_bottom)) = 0.01.
Proof.
  do 2 (split; [reflexivity|]).
  exact (proj1 (proj2 (below_bottom_negates_dy near_bottom eq_refl eq_refl))).
Defined.

(** X4. A tick in which no test of lines 108-128 holds only integrates: the
    ball moves by its velocity and keeps it. *)
Theorem quiet_tick_integrates (g : Game) :
  quiet g = true ->
  ball (update g) =
    {| Ball.x := Ball.x (ball g) + Ball.dx (ball g);
       Ball.y := Ball.y (ball g) + Ball.dy (ball g);
       Ball.dx := Ball.dx (ball g); Ball.dy := Ball.dy (ball g);
       Ball.size := Ball.size (ball g) |}.
Proof.
  unfold quiet. cbv zeta. rewrite !andb_true_iff, !negb_true_iff.
  intros [[[Hw Hl] Hr] Ho].
  rewrite ball_update. unfold recentre. rewrite Ho.
  unfold collided, bounce_right. rewrite Hr.
  unfold bounce_left. rewrite Hl.
  unfold bounce_wall. rewrite Hw. reflexivity.
Qed.

Lemma quiet_tick_integrates_initial :
  quiet initial = true /\
  ball (update initial) =
    {| Ball.x := 0.01; Ball.y := 0.01; Ball.dx := 0.01; Ball.dy := 0.01;
       Ball.size := 0.02 |}.
Proof.
  split; [reflexivity|].
  exact (quiet_tick_integrates initial eq_refl).
Defined.

(** ** Keys *)

(** [update] reads the [keys] object at four identifiers only. *)
Lemma update_reads_four_keys (g : Game) (ks : Keys) :
  isPressed ks "w" = isPressed (keys g) "w" ->
  isPressed ks "s" = isPressed (keys g) "s" ->
  isPressed ks "ArrowUp" = isPressed (keys g) "ArrowUp" ->
  isPressed ks "ArrowDown" = isPressed (keys g) "ArrowDown" ->
  update {| paddles := paddles g; ball := ball g; keys := ks |} =
  {| paddles := paddles (update g); ball := ball (update g); keys := ks |}.
Proof.
  intros Hw Hs Hu Hd.
  unfold update, update_left, update_right, steer. simpl.
  now rewrite Hw, Hs, Hu, Hd.
Qed.

Lemma control_key_other (k : string) :
  control_key k = false ->
  k <> "w" /\ k <> "s" /\ k <> "ArrowUp" /\ k <> "ArrowDown".
Proof.
  unfold control_key. rewrite !orb_false_iff, !String.eqb_neq. tauto.
Qed.

(** X5. An event on a key other than ['w'], ['s'], ['ArrowUp'] and
    ['ArrowDown'] (for instance ['W'], typed with the shift key down) does not
    steer anything: it commutes with [update]. *)
Theorem other_keys_commute_with_update (k : string) (g : Game) :
  control_key k = false ->
  update (keydown k g) = keydown k (update g) /\
  update (keyup k g) = keyup k (update g).
Proof.
  intros (Nw & Ns & Nu & Nd)%control_key_other.
  split; unfold keydown, keyup;
    apply update_reads_four_keys; now apply isPressed_setPressed_other.
Qed.

Lemma other_keys_commute_with_update_capital :
  control_key "W" = false /\
  paddle Left (update (keydown "W" initial)) = paddle Left (update initial).
Proof.
  split; [reflexivity|].
  exact (f_equal (paddle Left)
           (proj1 (other_keys_commute_with_update "W" initial eq_refl))).
Defined.

(** X6. A paddle answers to its own two keys only: an event on any other
    key, the other player's included, leaves its next position and velocity
    as they would have been. *)
Theorem paddle_ignores_other_keys (s : side) (k : string) (g : Game) :
  String.eqb k (up_key s) = false -> String.eqb k (down_key s) = false ->
  paddle s (update (keydown k g)) = paddle s (update g) /\
  paddle s (update (keyup k g)) = paddle s (update g).
Proof.
  intros Nu%String.eqb_neq Nd%String.eqb_neq. rewrite !paddle_update.
  assert (forall (b : bool) (p : Paddle.t),
            steer (up_key s) (down_key s) (setPressed k b (keys g)) p =
            steer (up_key s) (down_key s) (keys g) p) as Same.
  { intros b p. unfold steer.
    now rewrite !isPressed_setPressed_other by assumption. }
  destruct s; split; exact (f_equal (fun p => clamp (advance p)) (Same _ _)).
Qed.

Lemma paddle_ignores_other_keys_arrow :
  String.eqb "ArrowUp" (up_key Left) = false /\
  String.eqb "ArrowUp" (down_key Left) = false /\
  paddle Left (update (keydown "ArrowUp" initial)) = paddle Left (update initial).
Proof.
  do 2 (split; [reflexivity|]).
  exact (proj1 (paddle_ignores_other_keys Left "ArrowUp" initial
                  eq_refl eq_refl)).
Defined.

(** X7. What [update] sees of a key other than [__proto__] is what the last
    event on that key wrote, whatever else happened in between: after any
    trace the key reads as pressed exactly when the last event that wrote
    it was a key-down (or, if no event wrote it, when it read as pressed
    before).  On an object without an own [__proto__], as the program's
    always is, [__proto__] reads as pressed after every trace. *)
Theorem last_event_decides_key (evs : list event) : forall (g : Game) (k : string),
  (String.eqb k "__proto__" = false ->
   isPressed (keys (play evs g)) k =
   match last_write k evs with
   | Some b => b
   | None => isPressed (keys g) k
   end) /\
  (keys g !! "__proto__" = None ->
   isPressed (keys (play evs g)) "__proto__" = true) /\
  isPressed (keys (play evs initial)) "__proto__" = true.
Proof.
  intros g k. split; [|split].
  - intros P. revert g.
    induction evs as [|e evs IH]; intros g; [reflexivity|].
    change (play (e :: evs) g) with (play evs (handle g e)).
    rewrite IH. simpl. destruct (last_write k evs) as [b|]; [reflexivity|].
    destruct e as [k'|k'|]; simpl; [| |reflexivity];
      (destruct (String.eqb_spec k k') as [<-|N];
       [now apply isPressed_setPressed_same
       |apply isPressed_setPressed_other; congruence]).
  - intros H. unfold isPressed. now rewrite play_keeps_no_proto.
  - unfold isPressed. now rewrite play_keeps_no_proto.
Qed.

Lemma last_event_decides_key_w :
  String.eqb "w" "__proto__" = false /\
  isPressed
    (keys (play [KeyDown "w"; Frame; KeyUp "w"; KeyDown "s"; KeyDown "w"] initial))
    "w" = true /\
  isPressed (keys (play [KeyDown "w"; Frame; KeyUp "w"; KeyDown "s"] initial))
    "w" = false.
Proof.
  split; [reflexivity|]. split.
  - exact (proj1 (last_event_decides_key
                    [KeyDown "w"; Frame; KeyUp "w"; KeyDown "s"; KeyDown "w"]
                    initial "w") eq_refl).
  - exact (proj1 (last_event_decides_key
                    [KeyDown "w"; Frame; KeyUp "w"; KeyDown "s"]
                    initial "w") eq_refl).
Defined.

(** X8. A key pressed and released between two frames is never seen: if the
    key was up, the next [update] moves paddles and ball exactly as if
    nothing had been pressed. *)
Theorem tap_between_frames_is_lost (k : string) (g : Game) :
  isPressed (keys g) k = false ->
  paddles (update (keyup k (keydown k g))) = paddles (update g) /\
  ball (update (keyup k (keydown k g))) = ball (update g).
Proof.
  intros H.
  assert (forall k', isPressed (setPressed k false (setPressed k true (keys g))) k'
                     = isPressed (keys g) k') as Same.
  { intros k'. destruct (String.eqb_spec k k') as [<-|N].
    - rewrite H, setPressed_twice. now apply isPressed_false_written.
    - now rewrite !isPressed_setPressed_other. }
  change (keyup k (keydown k g))
    with {| paddles := paddles g; ball := ball g;
            keys := setPressed k false (setPressed k true (keys g)) |}.
  rewrite (update_reads_four_keys g _ (Same _) (Same _) (Same _) (Same _)).
  split; reflexivity.
Qed.

Lemma tap_between_frames_is_lost_w :
  isPressed (keys initial) "w" = false /\
  paddles (update (keyup "w" (keydown "w" initial))) = paddles (update initial).
Proof.
  split; [reflexivity|].
  exact (proj1 (tap_between_frames_is_lost "w" initial eq_refl)).
Defined.

(** ** Paddles in motion *)

Lemma Math_min_glb (a x v : float) :
  (a <=? x) = true -> (a <=? v) = true -> (a <=? Math_min x v) = true.
Proof.
  intros Hx Hv.
  destruct (leb_numbers _ _ Hx) as [_ Nx], (leb_numbers _ _ Hv) as [_ Nv].
  unfold Math_min. rewrite Nx, Nv. simpl.
  destruct (x <? v); [exact Hx|]. destruct (v <? x); [exact Hv|].
  destruct (get_sign x); assumption.
Qed.

Lemma Math_min_below_r (x v : float) :
  is_nan x = false -> is_nan v = false -> (Math_min x v <=? v) = true.
Proof.
  intros Nx Nv. unfold Math_min. rewrite Nx, Nv. simpl.
  destruct (x <? v) eqn:E1; [now apply ltb_leb|].
  destruct (v <? x) eqn:E2; [now apply leb_same|].
  destruct (get_sign x); [now apply leb_total|now apply leb_same].
Qed.

Lemma Math_max_above_r (lo m : float) :
  is_nan lo = false -> is_nan m = false -> (m <=? Math_max lo m) = true.
Proof.
  intros Nl Nm. unfold Math_max. rewrite Nl, Nm. simpl.
  destruct (lo <? m) eqn:E1; [now apply leb_same|].
  destruct (m <? lo) eqn:E2; [now apply ltb_leb|].
  destruct (get_sign lo); [now apply leb_same|now apply leb_total].
Qed.

Lemma leb_both_eqb (a b : float) :
  (a <=? b) = true -> (b <=? a) = true -> (a =? b) = true.
Proof.
  intros Hab Hba. destruct (leb_numbers _ _ Hab) as [Na Nb].
  apply eqb_total; try assumption; now apply leb_not_gt.
Qed.

(** Clamping a number that is inside the interval gives it back. *)
Lemma clamp_inside (lo hi v : float) :
  (lo <=? v) = true -> (v <=? hi) = true ->
  (Math_max lo (Math_min hi v) =? v) = true.
Proof.
  intros Hlo Hhi.
  destruct (leb_numbers _ _ Hlo) as [Nlo Nv], (leb_numbers _ _ Hhi) as [_ Nhi].
  destruct (Math_min_below hi v Nhi Nv) as [Nm Hmhi].
  pose proof (Math_min_below_r hi v Nhi Nv) as Hmv.
  pose proof (Math_min_glb v hi v Hhi (leb_same v Nv)) as Hvm.
  assert ((lo <=? Math_min hi v) = true) as Hlom by (eapply leb_chain; eassumption).
  destruct (Math_max_between lo (Math_min hi v) v Hlo Hmv) as [_ Hup].
  pose proof (Math_max_above_r lo _ Nlo Nm) as Hdown.
  apply leb_both_eqb; [exact Hup|]. eapply leb_chain; eassumption.
Qed.

Section PaddleMotion.

Variables (g : Game) (s : side).
Hypothesis inside : within_bounds (paddle s g) = true.

Lemma inside_facts :
  (lower_bound (paddle s g) <=? Paddle.y (paddle s g)) = true /\
  (Paddle.y (paddle s g) <=? upper_bound (paddle s g)) = true /\
  is_nan (Paddle.y (paddle s g)) = false /\
  is_nan (lower_bound (paddle s g)) = false /\
  is_nan (upper_bound (paddle s g)) = false.
Proof.
  apply andb_prop in inside as [Hlo Hhi].
  destruct (leb_numbers _ _ Hlo) as [Nlo Ny], (leb_numbers _ _ Hhi) as [_ Nhi].
  repeat split; assumption.
Qed.

Lemma paddle_moves_up :
  isPressed (keys g) (up_key s) = true ->
  (Paddle.y (paddle s g) <=? Paddle.y (paddle s (update g))) = true.
Proof.
  intros Hup. destruct inside_facts as (Hlo & Hhi & Ny & Nlo & Nhi).
  rewrite paddle_update_y, paddle_update_dy, steer_dy, Hup.
  assert ((Paddle.y (paddle s g) <=? Paddle.y (paddle s g) + 0.02) = true) as Hv
    by (apply add_finite_positive_ge; [reflexivity|reflexivity|exact Ny]).
  pose proof (Math_min_glb _ _ _ Hhi Hv) as Hm.
  destruct (leb_numbers _ _ Hm) as [_ Nm].
  eapply leb_chain; [exact Hm|]. now apply Math_max_above_r.
Qed.

Lemma paddle_moves_down :
  isPressed (keys g) (up_key s) = false ->
  isPressed (keys g) (down_key s) = true ->
  (Paddle.y (paddle s (update g)) <=? Paddle.y (paddle s g)) = true.
Proof.
  intros Hup Hdown. destruct inside_facts as (Hlo & Hhi & Ny & Nlo & Nhi).
  rewrite paddle_update_y, paddle_update_dy, steer_dy, Hup, Hdown.
  assert ((Paddle.y (paddle s g) + -0.02 <=? Paddle.y (paddle s g)) = true) as Hv
    by (apply add_finite_negative_le; [reflexivity|reflexivity|exact Ny]).
  destruct (leb_numbers _ _ Hv) as [Nv _].
  apply Math_max_between; [exact Hlo|].
  eapply leb_chain; [|exact Hv]. now apply Math_min_below_r.
Qed.

Lemma paddle_stays :
  isPressed (keys g) (up_key s) = false ->
  isPressed (keys g) (down_key s) = false ->
  (Paddle.y (paddle s (update g)) =? Paddle.y (paddle s g)) = true.
Proof.
  intros Hup Hdown. destruct inside_facts as (Hlo & Hhi & Ny & Nlo & Nhi).
  rewrite paddle_update_y, paddle_update_dy, steer_dy, Hup, Hdown.
  pose proof (add_zero _ Ny) as Hz.
  eapply eqb_chain; [|exact Hz].
  apply clamp_inside.
  - eapply leb_eqb_r; [exact Hlo|now apply eqb_swap].
  - eapply leb_eqb_l; eassumption.
Qed.

End PaddleMotion.

(** X9. A held key never moves its paddle the wrong way: from a position
    inside the interval of lines 100-101, a tick with the up key held ends no
    lower, and a tick with only the down key held ends no higher, however
    close to a bound the paddle is. *)
Theorem held_key_moves_paddle_one_way (g : Game) (s : side) :
  within_bounds (paddle s g) = true ->
  (isPressed (keys g) (up_key s) = true ->
   (Paddle.y (paddle s g) <=? Paddle.y (paddle s (update g))) = true) /\
  (isPressed (keys g) (up_key s) = false ->
   isPressed (keys g) (down_key s) = true ->
   (Paddle.y (paddle s (update g)) <=? Paddle.y (paddle s g)) = true).
Proof.
  intros H. split; [now apply paddle_moves_up|now apply paddle_moves_down].
Qed.

Lemma held_key_moves_paddle_one_way_at_top :
  within_bounds (paddle Left held_up) = true /\
  isPressed (keys held_up) (up_key Left) = true /\
  (Paddle.y (paddle Left held_up) <=? Paddle.y (paddle Left (update held_up)))
  = true.
Proof.
  assert (within_bounds (paddle Left held_up) = true) as H
    by (vm_compute; reflexivity).
  assert (isPressed (keys held_up) (up_key Left) = true) as K
    by (vm_compute; reflexivity).
  split; [exact H|]. split; [exact K|].
  exact (proj1 (held_key_moves_paddle_one_way held_up Left H) K).
Defined.

(** X10. With neither of its keys held a paddle inside its interval stays
    where it is: the position after the tick compares equal to the one
    before. *)
Theorem idle_paddle_stays (g : Game) (s : side) :
  within_bounds (paddle s g) = true ->
  isPressed (keys g) (up_key s) = false ->
  isPressed (keys g) (down_key s) = false ->
  (Paddle.y (paddle s (update g)) =? Paddle.y (paddle s g)) = true.
Proof. intros H Hu Hd. now apply paddle_stays. Qed.

Lemma idle_paddle_stays_initial :
  within_bounds (paddle Right initial) = true /\
  isPressed (keys initial) (up_key Right) = false /\
  isPressed (keys initial) (down_key Right) = false /\
  (Paddle.y (paddle Right (update initial)) =? Paddle.y (paddle Right initial))
  = true.
Proof.
  do 3 (split; [reflexivity|]).
  exact (idle_paddle_stays initial Right eq_refl eq_refl eq_refl).
Defined.

(** ** Drawing *)

Lemma drawRect_calls (gl : GL) (p a c : nat) (x y w h : float)
    (color : list float) :
  calls (drawRect gl p a c x y w h color) =
    calls gl ++
    [CreateBuffer (buffers gl); BindBuffer (buffers gl);
     BufferData (Float32Array (drawRect_array x y w h));
     EnableVertexAttribArray a;
     VertexAttribPointer a 2; Uniform4fv c color; DrawArrays 0 6] /\
  buffers (drawRect gl p a c x y w h color) = S (buffers gl).
Proof.
  unfold drawRect, createBuffer, gl_do. simpl.
  rewrite <- !app_assoc. split; reflexivity.
Qed.

Lemma render_buffers (gl : GL) (p a c : nat) (g : Game) :
  buffers (render gl p a c g) = (buffers gl + 3)%nat /\
  created (calls (render gl p a c g)) =
    created (calls gl) ++ seq (buffers gl) 3 /\
  bound (calls (render gl p a c g)) = bound (calls gl) ++ seq (buffers gl) 3 /\
  draws (calls (render gl p a c g)) =
    draws (calls gl) ++ repeat (0%nat, 6%nat) 3.
Proof.
  unfold render. cbv zeta.
  repeat match goal with
    | |- context [drawRect ?gl ?p ?a ?c ?x ?y ?w ?h ?col] =>
        let H := fresh in let H' := fresh in
        destruct (drawRect_calls gl p a c x y w h col) as [H H'];
        rewrite ?H, ?H'; clear H H'
    end.
  unfold gl_do, created, bound, draws. simpl calls. simpl buffers.
  rewrite !flat_map_app. simpl. rewrite <- !app_assoc. simpl.
  repeat split; try reflexivity. lia.
Qed.

(** X11. Each animation frame draws three rectangles and takes three new
    buffers for them: after [n] frames the context has handed out [3 n] more
    buffers, every one created was bound once, in the order of creation, and
    none is used for a second rectangle; the game state is the one [n]
    updates give. *)
Theorem frames_take_three_buffers_each (p a c n : nat) (g : Game) (gl : GL) :
  fst (frames p a c n (g, gl)) = run n g /\
  buffers (snd (frames p a c n (g, gl))) = (buffers gl + 3 * n)%nat /\
  created (calls (snd (frames p a c n (g, gl)))) =
    created (calls gl) ++ seq (buffers gl) (3 * n) /\
  bound (calls (snd (frames p a c n (g, gl)))) =
    bound (calls gl) ++ seq (buffers gl) (3 * n) /\
  draws (calls (snd (frames p a c n (g, gl)))) =
    draws (calls gl) ++ repeat (0%nat, 6%nat) (3 * n).
Proof.
  induction n as [|n (Hg & Hb & Hc & Hbd & Hd)].
  - simpl. rewrite !app_nil_r, Nat.add_0_r. repeat split.
  - change (frames p a c (S n) (g, gl))
      with (gameLoop p a c (frames p a c n (g, gl))).
    unfold gameLoop. cbn [fst snd].
    destruct (render_buffers (snd (frames p a c n (g, gl))) p a c
                (update (fst (frames p a c n (g, gl)))))
      as (-> & -> & -> & ->).
    rewrite Hg, Hb, Hc, Hbd, Hd, <- !app_assoc.
    replace (3 * S n)%nat with (3 * n + 3)%nat by lia.
    rewrite seq_app, repeat_app.
    repeat split; lia.
Qed.

(** [fround] on a few numbers: the roundings of 0.1 and 1.1, a binary32
    number kept, a tie going to the even neighbour, and the two ends of the
    binary32 range. *)
Lemma fround_examples :
  fround 0.1 = 0x1.99999ap-4 /\ fround 1.1 = 0x1.19999ap0 /\
  fround 0.5 = 0.5 /\ fround 0x1.000001p0 = 1 /\
  fround 1e39 = infinity /\ fround 1e-46 = 0 /\ fround (-0) = -0.
Proof. vm_compute. repeat split. Qed.

(** X12. A frame shows the state its own [update] produced: the three
    arrays it uploads are, in this order, the rectangles of the left paddle,
    the right paddle and the ball after the update, the ball as a square of
    half-side [size], each number as the [Float32Array] holds it. *)
Theorem frame_draws_updated_state (p a c : nat) (g : Game) (gl : GL) :
  uploads (calls (snd (gameLoop p a c (g, gl)))) =
    uploads (calls gl) ++
    [ Float32Array
        (drawRect_array (Paddle.x (paddle Left (update g)))
           (Paddle.y (paddle Left (update g)))
           (Paddle.width (paddle Left (update g)))
           (Paddle.height (paddle Left (update g))));
      Float32Array
        (drawRect_array (Paddle.x (paddle Right (update g)))
           (Paddle.y (paddle Right (update g)))
           (Paddle.width (paddle Right (update g)))
           (Paddle.height (paddle Right (update g))));
      Float32Array
        (drawRect_array (Ball.x (ball (update g))) (Ball.y (ball (update g)))
           (Ball.size (ball (update g))) (Ball.size (ball (update g)))) ].
Proof.
  unfold gameLoop. cbn [fst snd]. unfold render. cbv zeta.
  repeat match goal with
    | |- context [drawRect ?gl ?p ?a ?c ?x ?y ?w ?h ?col] =>
        let H := fresh in
        destruct (drawRect_calls gl p a c x y w h col) as [H _];
        rewrite ?H; clear H
    end.
  unfold gl_do, uploads. simpl calls.
  rewrite !flat_map_app. cbn [flat_map app]. rewrite <- !app_assoc.
  reflexivity.
Qed.

(** The first frame of a game: the top-left vertex of the left paddle goes
    to the context as the binary32 neighbours of -0.92 and 0.2, not as the
    binary64 numbers [update] works with. *)
Lemma first_frame_uploads_binary32 (p a c : nat) :
  exists rest : list float,
    nth 0 (uploads (calls (snd (gameLoop p a c (initial, mkGL [] 0))))) []
    = -0x1.d70a3ep-1 :: -0x1.99999ap-3 :: rest.
Proof. eexists. vm_compute. reflexivity. Qed.

(** The left paddle held up against its bound goes to the context with the
    top edge at the binary32 neighbour of 1.1: above the field after the
    rounding of the array as before it. *)
Lemma held_paddle_uploaded_past_top (p a c : nat) :
  nth 5 (nth 0 (uploads (calls (render (mkGL [] 0) p a c held_up))) []) 0
  = 0x1.19999ap0 /\
  (1 <? 0x1.19999ap0) = true.
Proof. split; vm_compute; reflexivity. Qed.
